(** * The Iliad sentiment pipeline (example.py): text cleaning stages

    A shallow embedding of the text-cleaning pipeline of [example.py] and
    the properties of its stages.  A Python [str] is a sequence of Unicode
    code points; it is modelled as a list of code points ([N]).  The library
    calls the script relies on ([str.split], [str.join], [str.find], slicing,
    [str.replace], [str.translate], [re.sub]) are modelled by the functions
    of the first part, each following the documented behaviour of the call
    as the script uses it. *)

From Stdlib Require Import NArith ZArith Ascii String List Lia.
From stdpp Require Import base list gmap strings.

Abbreviation char := N.
Abbreviation str := (list N).

(** An ASCII literal of the source as a sequence of code points. *)
Definition py (x : string) : str := N_of_ascii <$> list_ascii_of_string x.

Definition SPACE : char := 32%N.
Definition CR : char := 13%N.
Definition LF : char := 10%N.
Definition LBRACKET : char := 91%N.
Definition RBRACKET : char := 93%N.
(** U+2014 EM DASH and U+2019 RIGHT SINGLE QUOTATION MARK, the two
    characters of the source literals that are not ASCII. *)
Definition EM_DASH : char := 8212%N.
Definition RSQUO : char := 8217%N.

(** ** Python string operations *)

Module Py.

(** [l.startswith(p)] *)
Fixpoint startswith (p l : str) : bool :=
  match p, l with
  | [], _ => true
  | _ :: _, [] => false
  | a :: p', b :: l' => bool_decide (a = b) && startswith p' l'
  end.

(** [sub in l] *)
Fixpoint contains (sub l : str) : bool :=
  match l with
  | [] => startswith sub []
  | _ :: r => startswith sub l || contains sub r
  end.

(** [l.find(sub)], counting positions from [i]: the lowest index at which
    [sub] occurs, [-1] when it does not occur. *)
Fixpoint find_from (sub l : str) (i : Z) : Z :=
  match l with
  | [] => if startswith sub [] then i else (-1)%Z
  | _ :: r => if startswith sub l then i else find_from sub r (i + 1)%Z
  end.

Definition find (sub l : str) : Z := find_from sub l 0%Z.

(** Slice bounds are adjusted as CPython does: a negative bound counts from
    the end, and both bounds are clamped to [0 .. len]. *)
Definition adjust_index (i len : Z) : Z :=
  if (i <? 0)%Z then Z.max 0 (i + len) else Z.min i len.

(** [s[start:stop]]; an empty string when the adjusted stop is not after
    the adjusted start. *)
Definition slice (s : str) (start stop : Z) : str :=
  let len := Z.of_nat (length s) in
  let a := adjust_index start len in
  let b := adjust_index stop len in
  take (Z.to_nat (b - a)) (drop (Z.to_nat a) s).

(** [l.split(sep)] for a non-empty [sep] (an empty separator raises
    ValueError; both call sites pass a non-empty literal).  Occurrences of
    [sep] are found from left to right and do not overlap: after an
    occurrence at the current position the remaining [length sep - 1]
    characters of it are skipped. *)
Fixpoint split_from (sep : str) (skip : nat) (l : str) : list str :=
  match l with
  | [] => [[]]
  | c :: r =>
      match skip with
      | S k => split_from sep k r
      | O =>
          if startswith sep l
          then [] :: split_from sep (length sep - 1) r
          else match split_from sep 0 r with
               | piece :: pieces => (c :: piece) :: pieces
               | [] => [[c]]
               end
      end
  end.

Definition split (sep l : str) : list str := split_from sep 0 l.

(** [sep.join(pieces)] *)
Fixpoint join (sep : str) (pieces : list str) : str :=
  match pieces with
  | [] => []
  | p :: rest =>
      match rest with
      | [] => p
      | _ :: _ => p ++ sep ++ join sep rest
      end
  end.

(** [l.replace(old, new)]: every non-overlapping occurrence of [old], found
    from left to right, becomes [new].  With an empty [old], [new] is put
    before every character and at the end. *)
Fixpoint replace_from (old new : str) (skip : nat) (l : str) : str :=
  match l with
  | [] => []
  | c :: r =>
      match skip with
      | S k => replace_from old new k r
      | O =>
          if startswith old l
          then new ++ replace_from old new (length old - 1) r
          else c :: replace_from old new 0 r
      end
  end.

Definition replace (old new l : str) : str :=
  match old with
  | [] => new ++ flat_map (λ c, c :: new) l
  | _ :: _ => replace_from old new 0 l
  end.

(** [str.maketrans(x, y, z)]: a table from code points to code points, or
    to [None] for the characters of [z], which are to be deleted ([x] and
    [y] have equal lengths; the script passes two empty strings). *)
Definition maketrans (x y z : str) : gmap N (option N) :=
  foldr (λ c table, <[c := None]> table) (list_to_map (zip x (Some <$> y))) z.

(** [l.translate(table)]: a character without an entry is kept, one mapped
    to [None] is deleted, one mapped to a character is replaced by it. *)
Definition translate (table : gmap N (option N)) (l : str) : str :=
  flat_map (λ c, match table !! c with
                 | None => [c]
                 | Some None => []
                 | Some (Some d) => [d]
                 end) l.

(** [string.digits] *)
Definition digits : str := py "0123456789".

(** [str.isspace] on one character, which is what [\s] tests in a [str]
    pattern: the ASCII white space U+0009..U+000D, U+001C..U+001F, U+0020
    and the Unicode white space beyond ASCII. *)
Definition is_space (c : char) : bool :=
  ((9 <=? c) && (c <=? 13) || (28 <=? c) && (c <=? 32)
   || (c =? 133) || (c =? 160) || (c =? 5760)
   || (8192 <=? c) && (c <=? 8202)
   || (c =? 8232) || (c =? 8233) || (c =? 8239) || (c =? 8287)
   || (c =? 12288))%N.

End Py.

(** ** Regular expressions, as far as the script uses them

    The three patterns of the script are sequences of items, each a
    character class, possibly under a lazy star ([.*?]) or a greedy plus
    ([\s+]).  [re_match re l] tries the pattern at the start of [l] with
    the priorities of a backtracking matcher and returns the number of
    characters of the first match found. *)

Module Re.

Inductive item : Type :=
  | Cls (p : char → bool)
  | LazyStar (p : char → bool)
  | GreedyPlus (p : char → bool).

Fixpoint re_match (re : list item) : str → option nat :=
  match re with
  | [] => λ _, Some 0
  | it :: re' =>
      let k := re_match re' in
      match it with
      | Cls p => λ l,
          match l with
          | c :: r => if p c then S <$> k r else None
          | [] => None
          end
      | LazyStar p =>
          fix loop (l : str) : option nat :=
            match k l with
            | Some n => Some n
            | None =>
                match l with
                | c :: r => if p c then S <$> loop r else None
                | [] => None
                end
            end
      | GreedyPlus p =>
          fix loop (l : str) : option nat :=
            match l with
            | c :: r =>
                if p c
                then match loop r with
                     | Some n => Some (S n)
                     | None => S <$> k r
                     end
                else None
            | [] => None
            end
      end
  end.

(** [re.sub(re, repl, l)] for a replacement without escapes: the string is
    scanned from left to right; a match at the current position is replaced
    by [repl] and the scan resumes after it (an empty match is replaced and
    the character after it copied); a character where the pattern does not
    match is copied. *)
Fixpoint sub_from (re : list item) (repl : str) (skip : nat) (l : str) : str :=
  match l with
  | [] => match re_match re [] with Some _ => repl | None => [] end
  | c :: r =>
      match skip with
      | S k => sub_from re repl k r
      | O =>
          match re_match re l with
          | Some (S n) => repl ++ sub_from re repl n r
          | Some O => repl ++ c :: sub_from re repl 0 r
          | None => c :: sub_from re repl 0 r
          end
      end
  end.

Definition sub (re : list item) (repl l : str) : str := sub_from re repl 0 l.

Definition lit (a : char) : char → bool := λ c, bool_decide (c = a).

(** ['\r\n'] *)
Definition crlf : list item := [Cls (lit CR); Cls (lit LF)].
(** ["[\[].*?[\]]"]: the dot matches every character but the line feed. *)
Definition bracketed : list item :=
  [Cls (lit LBRACKET); LazyStar (λ c, negb (lit LF c)); Cls (lit RBRACKET)].
(** ['\s+'] *)
Definition spaces : list item := [GreedyPlus Py.is_space].

End Re.

(** ** The functions of example.py *)

Definition count_words (iliad : str) : nat :=
  length (Py.split [SPACE] iliad).

(** The loop of [remove_book_headers] mutates three locals. *)
Record rbh_state : Type := RbhState {
  poem : list str;
  book_markers : gset (list N);
  is_poem : bool
}.

Definition rbh_init : rbh_state :=
  {| poem := []; book_markers := ∅; is_poem := true |}.

(** One iteration of the loop, on the line [sentence]. *)
Definition rbh_step (st : rbh_state) (sentence : str) : rbh_state :=
  let st :=
    if Py.contains (py "BOOK ") sentence then
      if bool_decide (sentence ∉ book_markers st) then
        {| poem := poem st;
           book_markers := {[sentence]} ∪ book_markers st;
           is_poem := false |}
      else
        {| poem := poem st;
           book_markers := book_markers st;
           is_poem := true |}
    else st in
  if is_poem st then
    {| poem := poem st ++ [sentence];
       book_markers := book_markers st;
       is_poem := is_poem st |}
  else st.

Definition remove_book_headers (iliad : str) : str :=
  let final := foldl rbh_step rbh_init (Py.split [CR; LF] iliad) in
  Py.join [SPACE] (poem final).

(** The steps of [clean_poem] after header removal, one definition per
    statement. *)
Definition replace_newlines (iliad : str) : str :=
  Re.sub Re.crlf [SPACE] iliad.

Definition strip_digits (iliad : str) : str :=
  Py.translate (Py.maketrans [] [] Py.digits) iliad.

Definition remove_brackets (iliad : str) : str :=
  Re.sub Re.bracketed [] iliad.

Definition remove_tr (iliad : str) : str :=
  Py.replace (EM_DASH :: py "Tr.") [] iliad.

Definition collapse_spaces (iliad : str) : str :=
  Re.sub Re.spaces [SPACE] iliad.

Definition clean_poem (iliad : str) : str :=
  let iliad := remove_book_headers iliad in
  let iliad := replace_newlines iliad in
  let iliad := strip_digits iliad in
  let iliad := remove_brackets iliad in
  let iliad := remove_tr iliad in
  let iliad := collapse_spaces iliad in
  iliad.

Definition modernize_sentences (iliad : str) : str :=
  Py.replace (RSQUO :: py "d") (py "ed") iliad.

(** ** What the script takes from its environment *)

(** An uncaught exception ends the script.  The HTTP request raises when
    it fails; building the analyzer and reading the stopword corpus raise
    [LookupError] when the NLTK data are missing. *)
Inductive exn : Type := RequestException | LookupError.

Inductive result (A : Type) : Type :=
  | Ok (a : A)
  | Raise (e : exn).
Arguments Ok {A} a.
Arguments Raise {A} e.

Section Script.

(** [stopwords.words('english')], the word list of the NLTK corpus, and
    [str.lower] are library data and a builtin; the scorer
    [sia.polarity_scores] is a black box returning a score record. *)
Variable english : list str.
Variable lower : str → str.
Variable Scores : Type.
Variable polarity_scores : str → Scores.

Definition remove_stopwords (iliad : str) : str :=
  let stop_words : gset (list N) := list_to_set english in
  let iliad_without_stopwords :=
    filter (λ w, lower w ∉ stop_words) (Py.split [SPACE] iliad) in
  Py.join [SPACE] iliad_without_stopwords.

(** The lines the script prints, by their format string. *)
Inductive line : Type :=
  | Downloaded (n : nat)        (* The download text contains {n} words *)
  | Contains (n : nat)          (* The Iliad contains {n} words *)
  | WithoutStopwords (n : nat)  (* The Iliad without stopwords contains {n} words *)
  | Analyzing (n : nat)         (* Analyzing {n} words... *)
  | ResultsHeader               (* Results of the sentiment analysis: *)
  | Json (scores : Scores).     (* json.dumps(scores, indent=4) *)

(** The state the script runs in: the reply of the server to the one GET
    request, the module-level variable [iliad], and standard output. *)
Record World : Type := MkWorld {
  network : result str;
  g_iliad : str;
  stdout : list line
}.

Definition M (A : Type) : Type := World → result (A * World).

#[local] Instance M_ret : MRet M := λ A a w, Ok (a, w).
#[local] Instance M_bind : MBind M := λ A B k m w,
  match m w with
  | Ok (a, w') => k a w'
  | Raise e => Raise e
  end.

Definition load_iliad : M str := λ w, Ok (g_iliad w, w).

Definition store_iliad (v : str) : M unit := λ w,
  Ok (tt, {| network := network w; g_iliad := v; stdout := stdout w |}).

Definition print (ln : line) : M unit := λ w,
  Ok (tt, {| network := network w; g_iliad := g_iliad w;
             stdout := stdout w ++ [ln] |}).

(** [requests.get(url).text] *)
Definition download_Iliad : M str := λ w,
  match network w with
  | Ok text => Ok (text, w)
  | Raise e => Raise e
  end.

Definition get_Iliad : M str :=
  iliad ← download_Iliad;
  let index_end_header := Py.find (py "ENGLISH BLANK VERSE.") iliad in
  let index_start_footer := Py.find (py "FOOTNOTES") iliad in
  mret (Py.slice iliad index_end_header index_start_footer).

Definition sentiment_analysis (iliad : str) : M unit :=
  print (Analyzing (count_words iliad));;
  let scores := polarity_scores iliad in
  print ResultsHeader;;
  print (Json scores).

(** A stage applied to the module-level buffer: [iliad = stage(iliad)]. *)
Definition rebind (stage : str → str) : M unit :=
  iliad ← load_iliad; store_iliad (stage iliad).

(** The statements at module level, from [iliad = get_Iliad()] on, when
    the NLTK data are there: [english] is the word list read from the
    corpus and [polarity_scores] the scorer of the analyzer. *)
Definition script : M unit :=
  (iliad ← get_Iliad; store_iliad iliad);;
  (iliad ← load_iliad; print (Downloaded (count_words iliad)));;
  rebind clean_poem;;
  rebind modernize_sentences;;
  (iliad ← load_iliad; print (Contains (count_words iliad)));;
  rebind remove_stopwords;;
  (iliad ← load_iliad; print (WithoutStopwords (count_words iliad)));;
  (iliad ← load_iliad; sentiment_analysis iliad).

End Script.

Arguments Downloaded {Scores} n.
Arguments Contains {Scores} n.
Arguments WithoutStopwords {Scores} n.
Arguments Analyzing {Scores} n.
Arguments ResultsHeader {Scores}.
Arguments Json {Scores} scores.
Arguments network {Scores} w.
Arguments g_iliad {Scores} w.
Arguments stdout {Scores} w.
Arguments MkWorld {Scores}.

(** ** The script with its NLTK data

    The lexicon of the analyzer and the stopword corpus are files of the
    NLTK data directory.  [lexicon] and [corpus] are what loading them
    gives when the script asks: the data, or [LookupError]. *)

Section Program.

Variable lower : str → str.
Variable Scores : Type.
Variable lexicon : result (str → Scores).
Variable corpus : result (list str).

#[local] Existing Instance M_ret.
#[local] Existing Instance M_bind.

Definition lift {A : Type} (r : result A) : M Scores A := λ w,
  match r with
  | Ok a => Ok (a, w)
  | Raise e => Raise e
  end.

(** [SentimentIntensityAnalyzer()] *)
Definition new_analyzer : M Scores (str → Scores) := lift lexicon.

(** [stopwords.words('english')] *)
Definition stopwords_words : M Scores (list str) := lift corpus.

(** A call of [remove_stopwords]: the function reads the corpus first. *)
Definition remove_stopwords_call (iliad : str) : M Scores str :=
  english ← stopwords_words;
  mret (remove_stopwords english lower iliad).

(** The module from [sia = SentimentIntensityAnalyzer()] on.  The [try]
    block after it catches the [LookupError] of its lookups and raises
    nothing. *)
Definition program : M Scores unit :=
  sia ← new_analyzer;
  (iliad ← get_Iliad Scores; store_iliad Scores iliad);;
  (iliad ← load_iliad Scores;
   print Scores (Downloaded (count_words iliad)));;
  rebind Scores clean_poem;;
  rebind Scores modernize_sentences;;
  (iliad ← load_iliad Scores;
   print Scores (Contains (count_words iliad)));;
  (iliad ← load_iliad Scores;
   iliad ← remove_stopwords_call iliad;
   store_iliad Scores iliad);;
  (iliad ← load_iliad Scores;
   print Scores (WithoutStopwords (count_words iliad)));;
  (iliad ← load_iliad Scores; sentiment_analysis Scores sia iliad).

End Program.

(** ** Instances used in the examples *)

(** The English list of the NLTK stopwords corpus (179 words). *)
Definition nltk_english : list str := py <$>
  [ "i"; "me"; "my"; "myself"; "we"; "our"; "ours"; "ourselves"; "you";
    "you're"; "you've"; "you'll"; "you'd"; "your"; "yours"; "yourself";
    "yourselves"; "he"; "him"; "his"; "himself"; "she"; "she's"; "her";
    "hers"; "herself"; "it"; "it's"; "its"; "itself"; "they"; "them";
    "their"; "theirs"; "themselves"; "what"; "which"; "who"; "whom";
    "this"; "that"; "that'll"; "these"; "those"; "am"; "is"; "are"; "was";
    "were"; "be"; "been"; "being"; "have"; "has"; "had"; "having"; "do";
    "does"; "did"; "doing"; "a"; "an"; "the"; "and"; "but"; "if"; "or";
    "because"; "as"; "until"; "while"; "of"; "at"; "by"; "for"; "with";
    "about"; "against"; "between"; "into"; "through"; "during"; "before";
    "after"; "above"; "below"; "to"; "from"; "up"; "down"; "in"; "out";
    "on"; "off"; "over"; "under"; "again"; "further"; "then"; "once";
    "here"; "there"; "when"; "where"; "why"; "how"; "all"; "any"; "both";
    "each"; "few"; "more"; "most"; "other"; "some"; "such"; "no"; "nor";
    "not"; "only"; "own"; "same"; "so"; "than"; "too"; "very"; "s"; "t";
    "can"; "will"; "just"; "don"; "don't"; "should"; "should've"; "now";
    "d"; "ll"; "m"; "o"; "re"; "ve"; "y"; "ain"; "aren"; "aren't";
    "couldn"; "couldn't"; "didn"; "didn't"; "doesn"; "doesn't"; "hadn";
    "hadn't"; "hasn"; "hasn't"; "haven"; "haven't"; "isn"; "isn't"; "ma";
    "mightn"; "mightn't"; "mustn"; "mustn't"; "needn"; "needn't"; "shan";
    "shan't"; "shouldn"; "shouldn't"; "wasn"; "wasn't"; "weren"; "weren't";
    "won"; "won't"; "wouldn"; "wouldn't" ]%string.

(** [str.lower] restricted to what it does on ASCII text: the letters
    A..Z are mapped to a..z. *)
Definition lower_ascii (w : str) : str :=
  (λ c, if (65 <=? c) && (c <=? 90) then c + 32 else c)%N <$> w.

(** A mini-poem with a duplicated header line. *)
Definition mini_poem : str :=
  py "A TRANSLATION" ++ [CR; LF] ++
  py "BOOK I." ++ [CR; LF] ++
  py "ARGUMENT OF THE FIRST BOOK." ++ [CR; LF] ++
  py "BOOK I." ++ [CR; LF] ++
  py "Sing, Muse, the wrath" ++ [CR; LF] ++
  py "of Achilles".

(** ** Measures used in the statements *)

(** The number of occurrences of the character [a] in [l]. *)
Definition occurrences (a : char) (l : str) : nat :=
  length (filter (λ c, c = a) l).

(** The ASCII digits, ['0'] to ['9']. *)
Definition is_digit (c : char) : bool := ((48 <=? c) && (c <=? 57))%N.

(** The number of line separators ['\r\n'] that [split] finds in [l]. *)
Definition line_breaks (l : str) : nat := length (Py.split [CR; LF] l) - 1.

(** The number of white space characters of [l] other than the space. *)
Definition other_white_space (l : str) : nat :=
  length (filter (λ c, Py.is_space c ∧ c ≠ SPACE) l).

(** The lines that one more run of the header loop keeps, from a state. *)
Definition kept_from (st : rbh_state) (lines : list str) : list str :=
  drop (length (poem st)) (poem (foldl rbh_step st lines)).

(** No line of [lines] that contains ['BOOK '] is a line of [seen] or a
    line before it in [lines]: every marker line among them is read for
    the first time. *)
Fixpoint no_repeated_marker (seen lines : list str) : bool :=
  match lines with
  | [] => true
  | l :: rest =>
      (negb (Py.contains (py "BOOK ") l) || bool_decide (l ∉ seen))
      && no_repeated_marker (l :: seen) rest
  end.

(** What [get_Iliad] cuts out of the downloaded text. *)
Definition body (text : str) : str :=
  Py.slice text (Py.find (py "ENGLISH BLANK VERSE.") text)
                (Py.find (py "FOOTNOTES") text).

(** The tokens of [iliad] whose lower-case form is not in the word list. *)
Definition surviving (english : list str) (lower : str → str) (iliad : str)
  : list str :=
  filter (λ w, lower w ∉ english) (Py.split [SPACE] iliad).

(** The text is in normal form: its only white space is the space, and no
    two spaces are next to each other. *)
Definition single_spaced (t : str) : Prop :=
  (∀ c, c ∈ t → Py.is_space c = true → c = SPACE)
  ∧ Py.contains [SPACE; SPACE] t = false.

(** * The operations on small inputs *)

Section Examples.

Example split_keeps_empty_pieces :
  Py.split [SPACE] (py "a  b ") = [py "a"; []; py "b"; []].
Proof. vm_compute. reflexivity. Qed.

Example split_on_line_breaks :
  Py.split [CR; LF] (py "a" ++ [CR; CR; LF; LF] ++ py "b" ++ [CR; LF])
  = [py "a" ++ [CR]; [LF] ++ py "b"; []].
Proof. vm_compute. reflexivity. Qed.

Example join_of_no_piece : Py.join [SPACE] [] = [].
Proof. reflexivity. Qed.

Example replace_does_not_overlap :
  Py.replace (py "aa") (py "b") (py "aaa") = py "ba".
Proof. vm_compute. reflexivity. Qed.

Example find_lowest_index : Py.find (py "ab") (py "xxabab") = 2%Z.
Proof. vm_compute. reflexivity. Qed.

Example slice_with_negative_start :
  Py.slice (py "abcdef") (-2) 6 = py "ef"
  ∧ Py.slice (py "abcdef") (-1) 3 = []
  ∧ Py.slice (py "abcdef") 2 (-1) = py "cde".
Proof. vm_compute. done. Qed.

Example bracket_not_closed_on_its_line :
  remove_brackets (py "a[b" ++ [LF] ++ py "c]d[e]") = py "a[b" ++ [LF] ++ py "c]d".
Proof. vm_compute. reflexivity. Qed.

Example white_space_runs_collapse :
  collapse_spaces (py "a  b" ++ [9; LF]%N ++ py "c ") = py "a b c ".
Proof. vm_compute. reflexivity. Qed.

Example clean_poem_on_a_line :
  clean_poem (py "Thus he. [Note 12" ++ [EM_DASH] ++ py "Tr.]  And 3 more"
              ++ [EM_DASH] ++ py "Tr.")
  = py "Thus he. And more".
Proof. vm_compute. reflexivity. Qed.

Example modernize_sentences_on_a_word :
  modernize_sentences (py "prevail" ++ [RSQUO] ++ py "d") = py "prevailed".
Proof. vm_compute. reflexivity. Qed.

Example remove_stopwords_keeps_empty_tokens :
  remove_stopwords nltk_english lower_ascii (py "The wrath of  Achilles")
  = py "wrath  Achilles".
Proof. vm_compute. reflexivity. Qed.

(** The order of the steps shows: once the line breaks are replaced, the
    text is one line, a marker line seen for the first time. *)
Example headers_after_line_breaks :
  remove_book_headers (replace_newlines mini_poem) = []
  ∧ replace_newlines (remove_book_headers mini_poem)
    = py "A TRANSLATION BOOK I. Sing, Muse, the wrath of Achilles".
Proof. vm_compute. done. Qed.

End Examples.

(** * Properties of the string operations *)

Section StringLemmas.

Implicit Types (l r p sep old new : str) (a c : char) (k : nat).

Lemma startswith_app p l : Py.startswith p (p ++ l) = true.
Proof.
  induction p as [|a p IH]; simpl; [done|].
  by rewrite bool_decide_eq_true_2, IH.
Qed.

Lemma startswith_inv p l :
  Py.startswith p l = true → l = p ++ drop (length p) l.
Proof.
  revert l. induction p as [|a p IH]; intros [|b l] H; simpl in *; try done.
  apply andb_prop in H as [Hab Hp]. apply bool_decide_eq_true_1 in Hab.
  subst b. f_equal. by apply IH.
Qed.

Lemma startswith_take p l :
  Py.startswith p l = true → take (length p) l = p.
Proof.
  intros H. rewrite (startswith_inv _ _ H) at 1. apply take_app_length.
Qed.

Lemma startswith_single a c r :
  Py.startswith [a] (c :: r) = bool_decide (a = c).
Proof. simpl. apply andb_true_r. Qed.

Lemma occurrences_nil a : occurrences a [] = 0.
Proof. done. Qed.

Lemma occurrences_cons a c l :
  occurrences a (c :: l) =
  (if decide (c = a) then 1 else 0) + occurrences a l.
Proof. unfold occurrences. rewrite filter_cons. by case_decide. Qed.

Lemma occurrences_app a l r :
  occurrences a (l ++ r) = occurrences a l + occurrences a r.
Proof. unfold occurrences. by rewrite filter_app, length_app. Qed.

Lemma occurrences_0 a l : a ∉ l → occurrences a l = 0.
Proof.
  induction l as [|c l IH]; [done|].
  rewrite not_elem_of_cons, occurrences_cons. intros [Hne Hl].
  rewrite IH by done. case_decide; [congruence | done].
Qed.

Lemma occurrences_pos a l : a ∈ l → 0 < occurrences a l.
Proof.
  induction l as [|c l IH]; [by intros ?%elem_of_nil|].
  rewrite elem_of_cons, occurrences_cons. intros [->|Hl].
  - rewrite decide_True by done. lia.
  - specialize (IH Hl). lia.
Qed.

(** *** split *)

Lemma split_from_not_nil sep k l : Py.split_from sep k l ≠ [].
Proof.
  revert k. induction l as [|c l IH]; intros k; simpl; [done|].
  destruct k as [|k]; [|apply IH].
  destruct (Py.startswith sep (c :: l)); [done|].
  by destruct (Py.split_from sep 0 l).
Qed.

Lemma split_nil sep : Py.split sep [] = [[]].
Proof. done. Qed.

(** With a separator of one character, [split] cuts at every occurrence. *)
Lemma split_single_cons a c l :
  Py.split [a] (c :: l) =
  if decide (c = a) then [] :: Py.split [a] l
  else match Py.split [a] l with
       | piece :: pieces => (c :: piece) :: pieces
       | [] => [[c]]
       end.
Proof.
  unfold Py.split. cbn [Py.split_from]. rewrite startswith_single.
  case_decide as Hc.
  - by rewrite bool_decide_eq_true_2.
  - by rewrite bool_decide_eq_false_2 by congruence.
Qed.

Lemma length_split_single a l :
  length (Py.split [a] l) = occurrences a l + 1.
Proof.
  induction l as [|c l IH]; [done|].
  rewrite split_single_cons, occurrences_cons. case_decide.
  - simpl. rewrite IH. lia.
  - destruct (Py.split [a] l) eqn:E; simpl in *; lia.
Qed.

Lemma split_single_pieces a l : Forall (λ piece, a ∉ piece) (Py.split [a] l).
Proof.
  induction l as [|c l IH].
  - repeat constructor. apply not_elem_of_nil.
  - rewrite split_single_cons. case_decide.
    + constructor; [apply not_elem_of_nil | done].
    + destruct (Py.split [a] l) as [|piece pieces].
      * repeat constructor. rewrite not_elem_of_cons. split; [congruence|].
        apply not_elem_of_nil.
      * inversion IH; subst. constructor; [|done].
        rewrite not_elem_of_cons. split; [congruence | done].
Qed.

Lemma split_single_no_sep a l : a ∉ l → Py.split [a] l = [l].
Proof.
  induction l as [|c l IH]; [done|].
  rewrite not_elem_of_cons. intros [Hne Hl].
  rewrite split_single_cons, decide_False by congruence. by rewrite IH.
Qed.

Lemma split_single_app a p l :
  a ∉ p → Py.split [a] (p ++ a :: l) = p :: Py.split [a] l.
Proof.
  induction p as [|c p IH]; intros Hp.
  - simpl. rewrite split_single_cons. by rewrite decide_True.
  - apply not_elem_of_cons in Hp as [Hne Hp]. simpl.
    rewrite split_single_cons, decide_False by congruence.
    by rewrite IH.
Qed.

(** *** join *)

Lemma join_cons_cons sep p q pieces :
  Py.join sep (p :: q :: pieces) = p ++ sep ++ Py.join sep (q :: pieces).
Proof. done. Qed.

(** Splitting a joined list of pieces without separator gives the pieces
    back, unless the list is empty: the join of no piece is the empty
    string, which splits into one empty piece. *)
Lemma split_join_single a pieces :
  pieces ≠ [] → Forall (λ piece, a ∉ piece) pieces →
  Py.split [a] (Py.join [a] pieces) = pieces.
Proof.
  induction pieces as [|p pieces IH]; [done|]. intros _ Hall.
  inversion Hall as [|? ? Hp Hrest]; subst.
  destruct pieces as [|q pieces].
  - simpl. by apply split_single_no_sep.
  - rewrite join_cons_cons. cbn [app].
    rewrite split_single_app by done. f_equal. by apply IH.
Qed.

Lemma occurrences_join_single a pieces :
  occurrences a (Py.join [a] pieces) + 1 =
  match pieces with
  | [] => 1
  | _ :: _ => occurrences a (concat pieces) + length pieces
  end.
Proof.
  induction pieces as [|p pieces IH]; [done|].
  destruct pieces as [|q pieces].
  - simpl. rewrite app_nil_r. lia.
  - rewrite join_cons_cons. cbn [concat length] in *.
    rewrite !occurrences_app, occurrences_cons, occurrences_nil in *.
    rewrite decide_True by done. lia.
Qed.

(** A character that does not occur in the separator is in no occurrence
    of it: every occurrence of the character stays in some piece. *)
Lemma split_from_occurrences sep a :
  sep ≠ [] → a ∉ sep → ∀ l k, a ∉ take k l →
  occurrences a (concat (Py.split_from sep k l)) = occurrences a l.
Proof.
  intros Hsep Ha. induction l as [|c l IH]; intros k Hk; [done|].
  destruct k as [|k]; cbn [Py.split_from].
  - destruct (Py.startswith sep (c :: l)) eqn:Hst.
    + destruct sep as [|b sep']; [done|].
      apply startswith_take in Hst. cbn [length take] in Hst.
      injection Hst as -> Htl.
      apply not_elem_of_cons in Ha as [Hne Ha].
      replace (length (b :: sep') - 1) with (length sep') by (simpl; lia).
      cbn [concat app]. rewrite IH by (by rewrite Htl).
      rewrite occurrences_cons, decide_False by congruence. done.
    + specialize (IH 0). rewrite take_0 in IH.
      specialize (IH (not_elem_of_nil _)).
      destruct (Py.split_from sep 0 l) as [|piece pieces] eqn:E.
      { by apply split_from_not_nil in E. }
      cbn [concat app] in *. rewrite !occurrences_cons. by rewrite IH.
  - cbn [take] in Hk. apply not_elem_of_cons in Hk as [Hne Hk].
    rewrite IH by done.
    rewrite occurrences_cons, decide_False by congruence. done.
Qed.

Lemma split_occurrences sep a l :
  sep ≠ [] → a ∉ sep →
  occurrences a (concat (Py.split sep l)) = occurrences a l.
Proof.
  intros. apply split_from_occurrences; try done.
  rewrite take_0. apply not_elem_of_nil.
Qed.

(** *** replace *)

Lemma replace_from_occurrences_le old new a :
  a ∉ new → ∀ l k,
  occurrences a (Py.replace_from old new k l) ≤ occurrences a l.
Proof.
  intros Ha. induction l as [|c l IH]; intros k; [done|].
  destruct k as [|k]; cbn [Py.replace_from].
  - destruct (Py.startswith old (c :: l)).
    + rewrite occurrences_app, occurrences_0, occurrences_cons by done.
      specialize (IH (length old - 1)). lia.
    + rewrite !occurrences_cons. specialize (IH 0). lia.
  - rewrite occurrences_cons. specialize (IH k). lia.
Qed.

Lemma replace_from_occurrences old new a :
  old ≠ [] → a ∉ old → a ∉ new → ∀ l k, a ∉ take k l →
  occurrences a (Py.replace_from old new k l) = occurrences a l.
Proof.
  intros Hne0 Hold Hnew. induction l as [|c l IH]; intros k Hk; [done|].
  destruct k as [|k]; cbn [Py.replace_from].
  - destruct (Py.startswith old (c :: l)) eqn:Hst.
    + destruct old as [|b old']; [done|].
      apply startswith_take in Hst. cbn [length take] in Hst.
      injection Hst as -> Htl.
      apply not_elem_of_cons in Hold as [Hne Hold].
      replace (length (b :: old') - 1) with (length old') by (simpl; lia).
      rewrite occurrences_app, occurrences_0, IH by (by rewrite ?Htl).
      rewrite occurrences_cons, decide_False by congruence. done.
    + rewrite !occurrences_cons, IH; [done|].
      rewrite take_0. apply not_elem_of_nil.
  - cbn [take] in Hk. apply not_elem_of_cons in Hk as [Hne Hk].
    rewrite IH by done.
    rewrite occurrences_cons, decide_False by congruence. done.
Qed.

End StringLemmas.

(** * Properties of [translate] and of the regular expressions *)

Section TranslateLemmas.

Implicit Types (l z : str) (c : char).

Lemma maketrans_delete_lookup z c :
  Py.maketrans [] [] z !! c = if decide (c ∈ z) then Some None else None.
Proof.
  unfold Py.maketrans. cbn [zip zip_with fmap list_fmap list_to_map foldr].
  induction z as [|d z IH]; cbn [foldr].
  - rewrite lookup_empty. by rewrite decide_False by apply not_elem_of_nil.
  - rewrite lookup_insert, IH. destruct (decide (d = c)) as [->|Hne].
    + by rewrite decide_True by apply list_elem_of_here.
    + destruct (decide (c ∈ z)) as [Hin|Hout].
      * by rewrite decide_True by (by apply list_elem_of_further).
      * rewrite decide_False; [done|].
        rewrite not_elem_of_cons. split; [congruence | done].
Qed.

Lemma translate_delete z l :
  Py.translate (Py.maketrans [] [] z) l = filter (λ c, c ∉ z) l.
Proof.
  unfold Py.translate. induction l as [|c l IH]; [done|].
  cbn [flat_map]. rewrite IH, maketrans_delete_lookup, filter_cons.
  destruct (decide (c ∈ z)).
  - by rewrite decide_False by tauto.
  - by rewrite decide_True by done.
Qed.

Lemma elem_of_digits c : c ∈ Py.digits ↔ is_digit c = true.
Proof.
  change Py.digits with [48; 49; 50; 51; 52; 53; 54; 55; 56; 57]%N.
  unfold is_digit. rewrite andb_true_iff, !N.leb_le.
  rewrite !elem_of_cons, elem_of_nil. lia.
Qed.

End TranslateLemmas.

Section RegexLemmas.

Implicit Types (re : list Re.item) (l r repl : str) (a c : char) (k n : nat).

Lemma re_match_cls p re l :
  Re.re_match (Re.Cls p :: re) l =
  match l with
  | c :: r => if p c then S <$> Re.re_match re r else None
  | [] => None
  end.
Proof. done. Qed.

Lemma re_match_lazy_star p re l :
  Re.re_match (Re.LazyStar p :: re) l =
  match Re.re_match re l with
  | Some n => Some n
  | None =>
      match l with
      | c :: r => if p c then S <$> Re.re_match (Re.LazyStar p :: re) r else None
      | [] => None
      end
  end.
Proof. by destruct l. Qed.

Lemma re_match_greedy_plus p re l :
  Re.re_match (Re.GreedyPlus p :: re) l =
  match l with
  | c :: r =>
      if p c
      then match Re.re_match (Re.GreedyPlus p :: re) r with
           | Some n => Some (S n)
           | None => S <$> Re.re_match re r
           end
      else None
  | [] => None
  end.
Proof. by destruct l. Qed.

(** A match is a prefix of the text it is looked for in. *)
Lemma re_match_le re : ∀ l n, Re.re_match re l = Some n → n ≤ length l.
Proof.
  induction re as [|it re IH]; intros l n.
  - cbn. intros [= <-]. lia.
  - destruct it as [p|p|p].
    + rewrite re_match_cls. destruct l as [|c r]; [done|].
      destruct (p c); [|done].
      destruct (Re.re_match re r) as [m|] eqn:E; [|done].
      intros [= <-]. apply IH in E. simpl. lia.
    + revert n. induction l as [|c r IHl]; intros n;
        rewrite re_match_lazy_star.
      * destruct (Re.re_match re []) eqn:E; [|done].
        intros [= <-]. by apply IH in E.
      * destruct (Re.re_match re (c :: r)) eqn:E.
        { intros [= <-]. by apply IH in E. }
        destruct (p c); [|done].
        destruct (Re.re_match (Re.LazyStar p :: re) r) as [m|]; [|done].
        intros [= <-]. specialize (IHl m eq_refl). simpl. lia.
    + revert n. induction l as [|c r IHl]; intros n;
        rewrite re_match_greedy_plus; [done|].
      destruct (p c); [|done].
      destruct (Re.re_match (Re.GreedyPlus p :: re) r) as [m|].
      * intros [= <-]. specialize (IHl m eq_refl). simpl. lia.
      * destruct (Re.re_match re r) as [m|] eqn:E; [|done].
        intros [= <-]. apply IH in E. simpl. lia.
Qed.

(** Substitution adds no character but those of the replacement. *)
Lemma sub_from_occurrences_le re repl a :
  a ∉ repl → ∀ l k,
  occurrences a (Re.sub_from re repl k l) ≤ occurrences a l.
Proof.
  intros Ha. induction l as [|c l IH]; intros k.
  - cbn [Re.sub_from]. destruct (Re.re_match re []); [|done].
    rewrite occurrences_0 by done. lia.
  - destruct k as [|k]; cbn [Re.sub_from].
    + destruct (Re.re_match re (c :: l)) as [[|n]|].
      * rewrite occurrences_app, occurrences_0, !occurrences_cons by done.
        specialize (IH 0). lia.
      * rewrite occurrences_app, occurrences_0, occurrences_cons by done.
        specialize (IH n). lia.
      * rewrite !occurrences_cons. specialize (IH 0). lia.
    + rewrite occurrences_cons. specialize (IH k). lia.
Qed.

(** Skipping [k] characters and then scanning is scanning what is left. *)
Lemma sub_from_drop re repl : ∀ l k,
  k ≤ length l →
  Re.sub_from re repl k l = Re.sub_from re repl 0 (drop k l).
Proof.
  induction l as [|c l IH]; intros [|k] Hk; cbn [length] in Hk.
  - reflexivity.
  - lia.
  - reflexivity.
  - cbn [Re.sub_from drop]. apply IH. lia.
Qed.

Lemma sub_cons re repl c l :
  Re.sub re repl (c :: l) =
  match Re.re_match re (c :: l) with
  | Some (S n) => repl ++ Re.sub re repl (drop n l)
  | Some O => repl ++ c :: Re.sub re repl l
  | None => c :: Re.sub re repl l
  end.
Proof.
  unfold Re.sub. cbn [Re.sub_from].
  destruct (Re.re_match re (c :: l)) as [[|n]|] eqn:E; try done.
  apply re_match_le in E. rewrite sub_from_drop; [done|]. simpl in E. lia.
Qed.

End RegexLemmas.

(** ** The pattern of bracketed comments *)

Section Brackets.

Implicit Types (l r pre mid rest : str) (c : char).

(** What follows the opening bracket in the pattern: a lazy run of
    characters other than the line feed, then the closing bracket. *)
#[local] Abbreviation close :=
  (Re.re_match [Re.LazyStar (λ c, negb (Re.lit LF c)); Re.Cls (Re.lit RBRACKET)]).

Lemma close_nil : close [] = None.
Proof. done. Qed.

Lemma close_cons c r :
  close (c :: r) =
  if decide (c = RBRACKET) then Some 1
  else if decide (c = LF) then None else S <$> close r.
Proof.
  rewrite re_match_lazy_star, re_match_cls. unfold Re.lit.
  destruct (decide (c = RBRACKET)) as [->|Hc]; [done|].
  rewrite bool_decide_eq_false_2 by done.
  destruct (decide (c = LF)) as [->|Hn]; [done|].
  by rewrite bool_decide_eq_false_2 by done.
Qed.

(** The lazy run stops at the nearest closing bracket. *)
Lemma close_found mid rest :
  RBRACKET ∉ mid → LF ∉ mid →
  close (mid ++ RBRACKET :: rest) = Some (S (length mid)).
Proof.
  induction mid as [|c mid IH]; intros Hr Hn.
  - cbn [app]. rewrite close_cons. by rewrite decide_True.
  - apply not_elem_of_cons in Hr as [Hc Hr].
    apply not_elem_of_cons in Hn as [Hc' Hn].
    cbn [app]. rewrite close_cons, !decide_False by congruence.
    by rewrite IH.
Qed.

(** Text without a closing bracket, put after [r], changes no match. *)
Lemma close_app r rest : RBRACKET ∉ rest → close (r ++ rest) = close r.
Proof.
  intros Hrest. induction r as [|c r IH].
  - cbn [app]. induction rest as [|c rest IH]; [done|].
    apply not_elem_of_cons in Hrest as [Hc Hrest].
    rewrite close_cons, decide_False by congruence.
    case_decide; [done|]. by rewrite IH.
  - cbn [app]. rewrite !close_cons. by rewrite IH.
Qed.

Lemma match_bracketed l :
  Re.re_match Re.bracketed l =
  match l with
  | c :: r => if decide (c = LBRACKET) then S <$> close r else None
  | [] => None
  end.
Proof.
  unfold Re.bracketed. rewrite re_match_cls. destruct l as [|c r]; [done|].
  unfold Re.lit at 1. case_decide.
  - by rewrite bool_decide_eq_true_2.
  - by rewrite bool_decide_eq_false_2.
Qed.

Lemma remove_brackets_cons c l :
  remove_brackets (c :: l) =
  if decide (c = LBRACKET) then
    match close l with
    | Some n => remove_brackets (drop n l)
    | None => c :: remove_brackets l
    end
  else c :: remove_brackets l.
Proof.
  unfold remove_brackets. rewrite sub_cons, match_bracketed.
  case_decide; [|done]. by destruct (close l).
Qed.

Lemma remove_brackets_no_open l : LBRACKET ∉ l → remove_brackets l = l.
Proof.
  induction l as [|c l IH]; [done|].
  rewrite not_elem_of_cons. intros [Hc Hl].
  rewrite remove_brackets_cons, decide_False by congruence. by rewrite IH.
Qed.

Lemma remove_brackets_no_close l : RBRACKET ∉ l → remove_brackets l = l.
Proof.
  induction l as [|c l IH]; [done|].
  rewrite not_elem_of_cons. intros [Hc Hl].
  rewrite remove_brackets_cons.
  rewrite (close_app [] l Hl : close l = close []), close_nil.
  rewrite IH by done. by case_decide.
Qed.

Lemma remove_brackets_span pre mid rest :
  LBRACKET ∉ pre → RBRACKET ∉ mid → LF ∉ mid →
  remove_brackets (pre ++ LBRACKET :: mid ++ RBRACKET :: rest) =
  pre ++ remove_brackets rest.
Proof.
  intros Hpre Hmid Hnl. induction pre as [|c pre IH].
  - cbn [app]. rewrite remove_brackets_cons, decide_True by done.
    rewrite close_found by done. f_equal.
    replace (mid ++ RBRACKET :: rest) with ((mid ++ [RBRACKET]) ++ rest)
      by (by rewrite <- app_assoc).
    rewrite drop_app_length'; [done|]. rewrite length_app. simpl. lia.
  - apply not_elem_of_cons in Hpre as [Hc Hpre]. cbn [app].
    rewrite remove_brackets_cons, decide_False by congruence.
    by rewrite IH.
Qed.

Lemma remove_brackets_app_no_close : ∀ n pre rest,
  length pre ≤ n → RBRACKET ∉ rest →
  remove_brackets (pre ++ rest) = remove_brackets pre ++ rest.
Proof.
  induction n as [|n IH]; intros pre rest Hlen Hrest.
  - destruct pre; [|simpl in Hlen; lia].
    cbn [app]. by rewrite remove_brackets_no_close.
  - destruct pre as [|c pre].
    { cbn [app]. by rewrite remove_brackets_no_close. }
    cbn [length] in Hlen. cbn [app].
    rewrite !remove_brackets_cons, close_app by done.
    case_decide.
    + destruct (close pre) as [m|] eqn:E.
      * apply re_match_le in E.
        rewrite drop_app_le by done. apply IH; [|done].
        rewrite length_drop. lia.
      * cbn [app]. f_equal. apply IH; [lia | done].
    + cbn [app]. f_equal. apply IH; [lia | done].
Qed.

End Brackets.

(** ** The pattern of white space *)

Section Spaces.

Implicit Types (l r : str) (c : char) (k : nat).

Lemma match_spaces_nil : Re.re_match Re.spaces [] = None.
Proof. done. Qed.

(** The pattern matches exactly where a white space character stands, and
    a match is never empty. *)
Lemma match_spaces_cons c r :
  Re.re_match Re.spaces (c :: r) =
  if Py.is_space c
  then Some (S (default 0 (Re.re_match Re.spaces r)))
  else None.
Proof.
  unfold Re.spaces. rewrite re_match_greedy_plus.
  destruct (Py.is_space c); [|done].
  by destruct (Re.re_match [Re.GreedyPlus Py.is_space] r).
Qed.

Lemma white_space_split l :
  length (filter (λ c, Py.is_space c) l) =
  occurrences SPACE l + other_white_space l.
Proof.
  unfold other_white_space.
  induction l as [|c l IH]; [done|].
  rewrite occurrences_cons, !filter_cons.
  destruct (decide (c = SPACE)) as [->|Hc].
  - rewrite decide_True by done. rewrite decide_False by tauto.
    simpl. lia.
  - destruct (Py.is_space c) eqn:E.
    + rewrite decide_True by done. rewrite decide_True by done.
      simpl. lia.
    + rewrite decide_False by (intros H; exact H).
      rewrite decide_False by (intros [H _]; exact H).
      simpl. lia.
Qed.

(** Every space of the output stands for a run of white space. *)
Lemma collapse_from_spaces : ∀ l k,
  occurrences SPACE (Re.sub_from Re.spaces [SPACE] k l) ≤
  length (filter (λ c, Py.is_space c) l).
Proof.
  induction l as [|c l IH]; intros k; [done|].
  rewrite filter_cons. destruct k as [|k]; cbn [Re.sub_from].
  - rewrite match_spaces_cons. destruct (Py.is_space c) eqn:E.
    + rewrite decide_True by done.
      rewrite occurrences_app. cbn [length].
      specialize (IH (default 0 (Re.re_match Re.spaces l))).
      change (occurrences SPACE [SPACE]) with 1. lia.
    + rewrite decide_False by (intros H; exact H).
      rewrite occurrences_cons, decide_False; [apply IH|].
      intros ->. done.
  - specialize (IH k). case_decide; cbn [length]; lia.
Qed.

End Spaces.

(** * The header loop *)

Section Headers.

Implicit Types (st : rbh_state) (s m x : str) (ls pre hdr body rest : list str).

#[local] Abbreviation marker := (Py.contains (py "BOOK ")).

Lemma rbh_step_plain st s :
  marker s = false →
  rbh_step st s =
  if is_poem st
  then {| poem := poem st ++ [s]; book_markers := book_markers st;
          is_poem := is_poem st |}
  else st.
Proof. intros H. unfold rbh_step. by rewrite H. Qed.

Lemma rbh_step_first st m :
  marker m = true → m ∉ book_markers st →
  rbh_step st m =
  {| poem := poem st; book_markers := {[m]} ∪ book_markers st;
     is_poem := false |}.
Proof.
  intros H Hm. unfold rbh_step. rewrite H.
  by rewrite bool_decide_eq_true_2.
Qed.

Lemma rbh_step_repeat st m :
  marker m = true → m ∈ book_markers st →
  rbh_step st m =
  {| poem := poem st ++ [m]; book_markers := book_markers st;
     is_poem := true |}.
Proof.
  intros H Hm. unfold rbh_step. rewrite H.
  rewrite bool_decide_eq_false_2; [done|]. by intros ?.
Qed.

Lemma rbh_step_poem st s :
  poem (rbh_step st s) =
  poem st ++ (if is_poem (rbh_step st s) then [s] else []).
Proof.
  unfold rbh_step. destruct (marker s).
  - case_bool_decide; cbn; by rewrite ?app_nil_r.
  - destruct (is_poem st) eqn:E; cbn; by rewrite ?E, ?app_nil_r.
Qed.

Lemma rbh_step_markers st s x :
  x ∈ book_markers (rbh_step st s) → x ∈ book_markers st ∨ x = s.
Proof.
  unfold rbh_step. destruct (marker s).
  - destruct (bool_decide (s ∉ book_markers st)); cbn; [|auto].
    rewrite elem_of_union, elem_of_singleton. tauto.
  - destruct (is_poem st); cbn; auto.
Qed.

Lemma foldl_poem : ∀ ls st,
  poem (foldl rbh_step st ls) = poem st ++ kept_from st ls.
Proof.
  assert (∀ ls st, ∃ kept, poem (foldl rbh_step st ls) = poem st ++ kept)
    as Hprefix.
  { induction ls as [|s ls IH]; intros st.
    - exists []. cbn. by rewrite app_nil_r.
    - cbn [foldl]. destruct (IH (rbh_step st s)) as [kept ->].
      rewrite rbh_step_poem, <- app_assoc. eauto. }
  intros ls st. unfold kept_from.
  destruct (Hprefix ls st) as [kept ->]. by rewrite drop_app_length.
Qed.

Lemma kept_from_nil st : kept_from st [] = [].
Proof. unfold kept_from. cbn. apply drop_all. Qed.

Lemma kept_from_cons st s ls :
  kept_from st (s :: ls) =
  (if is_poem (rbh_step st s) then [s] else [])
    ++ kept_from (rbh_step st s) ls.
Proof.
  apply (app_inv_head (poem st)). rewrite <- foldl_poem. cbn [foldl].
  by rewrite foldl_poem, rbh_step_poem, app_assoc.
Qed.

Lemma kept_from_app : ∀ pre st ls,
  kept_from st (pre ++ ls) =
  kept_from st pre ++ kept_from (foldl rbh_step st pre) ls.
Proof.
  induction pre as [|s pre IH]; intros st ls.
  - by rewrite kept_from_nil.
  - cbn [app foldl]. by rewrite !kept_from_cons, IH, app_assoc.
Qed.

(** Lines without a marker leave the toggle and the markers alone and are
    kept exactly when the toggle says so. *)
Lemma plain_lines : ∀ ls st,
  Forall (λ s, marker s = false) ls →
  kept_from st ls = (if is_poem st then ls else [])
  ∧ is_poem (foldl rbh_step st ls) = is_poem st
  ∧ book_markers (foldl rbh_step st ls) = book_markers st.
Proof.
  induction ls as [|s ls IH]; intros st Hall.
  - rewrite kept_from_nil. cbn [foldl]. by destruct (is_poem st).
  - inversion Hall as [|? ? Hs Hls]; subst.
    destruct (IH (rbh_step st s) Hls) as (Hk & Hp & Hm).
    cbn [foldl]. rewrite kept_from_cons, Hk, Hp, Hm.
    rewrite rbh_step_plain by done.
    destruct (is_poem st) eqn:E; cbn; by rewrite ?E.
Qed.

(** Only lines that were read are among the markers. *)
Lemma markers_seen : ∀ ls st x,
  x ∈ book_markers (foldl rbh_step st ls) → x ∈ book_markers st ∨ x ∈ ls.
Proof.
  induction ls as [|s ls IH]; intros st x; cbn [foldl]; [auto|].
  intros [H| H]%IH.
  - apply rbh_step_markers in H as [H| ->]; [auto|].
    right. apply list_elem_of_here.
  - right. by apply list_elem_of_further.
Qed.

Lemma kept_from_length : ∀ ls st, length (kept_from st ls) ≤ length ls.
Proof.
  induction ls as [|s ls IH]; intros st.
  - by rewrite kept_from_nil.
  - rewrite kept_from_cons, length_app. specialize (IH (rbh_step st s)).
    destruct (is_poem (rbh_step st s)); simpl; lia.
Qed.

Lemma kept_from_occurrences a : ∀ ls st,
  occurrences a (concat (kept_from st ls)) ≤ occurrences a (concat ls).
Proof.
  induction ls as [|s ls IH]; intros st.
  - by rewrite kept_from_nil.
  - rewrite kept_from_cons, concat_app. cbn [concat].
    rewrite !occurrences_app. specialize (IH (rbh_step st s)).
    destruct (is_poem (rbh_step st s)); cbn [concat];
      rewrite ?app_nil_r, ?occurrences_nil; lia.
Qed.

(** A marker line read for the first time, header lines, the same marker
    line again, lines of the poem: only the repeat and the poem are kept. *)
Lemma header_then_poem st m hdr body rest :
  marker m = true → m ∉ book_markers st →
  Forall (λ s, marker s = false) hdr →
  Forall (λ s, marker s = false) body →
  kept_from st (m :: hdr ++ m :: body ++ rest) =
  m :: body ++
    kept_from (foldl rbh_step st (m :: hdr ++ m :: body)) rest.
Proof.
  intros Hm Hnew Hhdr Hbody.
  rewrite kept_from_cons, rbh_step_first by done. cbn [is_poem app].
  rewrite kept_from_app. cbn [foldl]. rewrite rbh_step_first by done.
  set (st2 := {| poem := poem st; book_markers := {[m]} ∪ book_markers st;
                 is_poem := false |}).
  destruct (plain_lines hdr st2 Hhdr) as (Hk & Hp & Hmk).
  rewrite Hk. cbn [is_poem st2 app].
  rewrite foldl_app. cbn [foldl].
  set (st3 := foldl rbh_step st2 hdr) in *.
  assert (m ∈ book_markers st3) as Hin.
  { rewrite Hmk. cbn. apply elem_of_union_l. by apply elem_of_singleton. }
  rewrite kept_from_cons, rbh_step_repeat by done. cbn [is_poem app].
  set (st4 := {| poem := poem st3 ++ [m]; book_markers := book_markers st3;
                 is_poem := true |}).
  rewrite kept_from_app.
  destruct (plain_lines body st4 Hbody) as (Hk' & _ & _).
  rewrite Hk'. done.
Qed.

Lemma rbh_step_markers_mono st s x :
  x ∈ book_markers st → x ∈ book_markers (rbh_step st s).
Proof.
  intros Hx. unfold rbh_step. destruct (marker s).
  - destruct (bool_decide (s ∉ book_markers st)); cbn; [|done].
    by apply elem_of_union_r.
  - destruct (is_poem st); cbn; done.
Qed.

(** A marker that was read stays among the markers. *)
Lemma markers_grow : ∀ ls st x,
  x ∈ book_markers st → x ∈ book_markers (foldl rbh_step st ls).
Proof.
  induction ls as [|s ls IH]; intros st x Hx; [done|].
  cbn [foldl]. by apply IH, rbh_step_markers_mono.
Qed.

(** With the toggle closed, lines among which every marker line is read
    for the first time leave it closed: none of them is kept. *)
Lemma first_time_lines : ∀ ls st seen,
  is_poem st = false →
  (∀ x, x ∈ book_markers st → x ∈ seen) →
  no_repeated_marker seen ls = true →
  kept_from st ls = [] ∧ is_poem (foldl rbh_step st ls) = false.
Proof.
  induction ls as [|s ls IH]; intros st seen Hoff Hseen Hls.
  - by rewrite kept_from_nil.
  - cbn [no_repeated_marker] in Hls. apply andb_prop in Hls as [Hs Hls].
    cbn [foldl]. rewrite kept_from_cons.
    destruct (marker s) eqn:Hm.
    + cbn [negb orb] in Hs. apply bool_decide_eq_true_1 in Hs.
      assert (s ∉ book_markers st) as Hnew by (intros ?%Hseen; done).
      rewrite rbh_step_first by done. cbn [is_poem app].
      apply (IH _ (s :: seen)); [done | | done].
      intros x. cbn [book_markers].
      rewrite elem_of_union, elem_of_singleton, elem_of_cons.
      intros [->|Hx]; [by left | right; by apply Hseen].
    + assert (rbh_step st s = st) as ->
        by (by rewrite rbh_step_plain, Hoff).
      rewrite Hoff. cbn [app].
      apply (IH _ (s :: seen)); [done | | done].
      intros x Hx. by apply list_elem_of_further, Hseen.
Qed.

End Headers.

(** * Stopword removal *)

Section Stopwords.

Variable english : list str.
Variable lower : str → str.

Implicit Types (iliad w t : str).

Lemma remove_stopwords_join iliad :
  remove_stopwords english lower iliad =
  Py.join [SPACE] (surviving english lower iliad).
Proof.
  unfold remove_stopwords, surviving. f_equal.
  apply list_filter_iff. intros w. by rewrite elem_of_list_to_set.
Qed.

Lemma surviving_no_space iliad :
  Forall (λ w, SPACE ∉ w) (surviving english lower iliad).
Proof.
  unfold surviving. apply Forall_forall. intros w [_ Hw]%list_elem_of_filter.
  pose proof (split_single_pieces SPACE iliad) as Hall.
  rewrite Forall_forall in Hall. by apply Hall.
Qed.

(** The tokens of the output are the surviving tokens of the input, unless
    no token survives: then the output is empty and has one empty token. *)
Lemma tokens_of_remove_stopwords iliad :
  Py.split [SPACE] (remove_stopwords english lower iliad) =
  match surviving english lower iliad with
  | [] => [[]]
  | _ :: _ => surviving english lower iliad
  end.
Proof.
  rewrite remove_stopwords_join.
  pose proof (surviving_no_space iliad) as Hall.
  destruct (surviving english lower iliad) as [|w ws] eqn:E; [done|].
  by apply split_join_single.
Qed.

End Stopwords.

(** * The claims about the word count *)

Section WordCount.

Implicit Types (s a b : str).

Lemma count_words_occurrences s : count_words s = occurrences SPACE s + 1.
Proof. apply length_split_single. Qed.

(** C10: [count_words] is the number of space characters plus one; the
    empty text counts one word, the count is never zero, and a line break
    ['\r\n'] separates no words: putting one into a text leaves the count
    as it is. *)
Theorem count_words_spaces_plus_one s a b :
  count_words s = occurrences SPACE s + 1
  ∧ count_words (py "") = 1
  ∧ count_words s ≠ 0
  ∧ count_words (a ++ [CR; LF] ++ b) = count_words (a ++ b).
Proof.
  split_and!.
  - apply count_words_occurrences.
  - done.
  - rewrite count_words_occurrences. lia.
  - rewrite !count_words_occurrences, !occurrences_app. done.
Qed.

(** C5: [modernize_sentences] preserves the word count. *)
Theorem modernize_sentences_word_count s :
  count_words (modernize_sentences s) = count_words s.
Proof.
  rewrite !count_words_occurrences. f_equal.
  unfold modernize_sentences, Py.replace. cbn [py fmap list_fmap].
  apply replace_from_occurrences.
  - done.
  - apply (bool_decide_unpack _). by vm_compute.
  - apply (bool_decide_unpack _). by vm_compute.
  - rewrite take_0. apply not_elem_of_nil.
Qed.

End WordCount.

(** * Digits *)

Section Digits.

Implicit Types (s : str) (c : char).

Lemma strip_digits_filter s :
  strip_digits s = filter (λ c, is_digit c = false) s.
Proof.
  unfold strip_digits. rewrite translate_delete.
  apply list_filter_iff. intros c. rewrite elem_of_digits.
  by destruct (is_digit c).
Qed.

Lemma remove_tr_occurrences_le c s :
  occurrences c (remove_tr s) ≤ occurrences c s.
Proof.
  unfold remove_tr, Py.replace.
  apply replace_from_occurrences_le, not_elem_of_nil.
Qed.

Lemma remove_brackets_occurrences_le c s :
  occurrences c (remove_brackets s) ≤ occurrences c s.
Proof. apply sub_from_occurrences_le, not_elem_of_nil. Qed.

(** C4: the digit-stripping step keeps exactly the characters that are not
    ASCII digits, in their order; its output, and the output of
    [clean_poem], contain no ASCII digit. *)
Theorem digits_stripped s :
  strip_digits s = filter (λ c, is_digit c = false) s
  ∧ (∀ c, c ∈ strip_digits s → is_digit c = false)
  ∧ (∀ c, c ∈ clean_poem s → is_digit c = false).
Proof.
  assert (∀ l c, c ∈ strip_digits l → is_digit c = false) as Hstrip.
  { intros l c. rewrite strip_digits_filter.
    by intros [? _]%list_elem_of_filter. }
  split_and!; [apply strip_digits_filter | apply Hstrip |].
  intros c Hc. destruct (is_digit c) eqn:Hd; [exfalso | done].
  apply occurrences_pos in Hc. unfold clean_poem in Hc.
  set (t := replace_newlines (remove_book_headers s)) in *.
  assert (occurrences c (strip_digits t) = 0) as H0.
  { apply occurrences_0. intros Hin. apply Hstrip in Hin. congruence. }
  assert (c ∉ [SPACE]) as Hsp.
  { intros ->%list_elem_of_singleton. done. }
  pose proof (sub_from_occurrences_le Re.spaces [SPACE] c Hsp
                (remove_tr (remove_brackets (strip_digits t))) 0) as H1.
  pose proof (remove_tr_occurrences_le c (remove_brackets (strip_digits t))).
  pose proof (remove_brackets_occurrences_le c (strip_digits t)).
  unfold collapse_spaces, Re.sub in Hc. lia.
Qed.

End Digits.

(** * Word counts along the cleaning stages *)

Section Stages.

Variable english : list str.
Variable lower : str → str.

Implicit Types (s : str).

Lemma strip_digits_word_count s :
  count_words (strip_digits s) = count_words s.
Proof.
  rewrite !count_words_occurrences, strip_digits_filter. f_equal.
  unfold occurrences. rewrite list_filter_filter.
  f_equal. apply list_filter_iff. intros c. split; [tauto|].
  intros ->. done.
Qed.

Lemma remove_brackets_word_count s :
  count_words (remove_brackets s) ≤ count_words s.
Proof.
  rewrite !count_words_occurrences.
  pose proof (remove_brackets_occurrences_le SPACE s). lia.
Qed.

Lemma remove_stopwords_word_count s :
  count_words (remove_stopwords english lower s) ≤ count_words s.
Proof.
  unfold count_words at 1. rewrite tokens_of_remove_stopwords.
  pose proof (length_filter (λ w, lower w ∉ english) (Py.split [SPACE] s))
    as Hle.
  fold (surviving english lower s) in Hle. fold (count_words s) in Hle.
  destruct (surviving english lower s); [|done].
  rewrite count_words_occurrences. simpl. lia.
Qed.

Lemma collapse_spaces_word_count s :
  count_words (collapse_spaces s) ≤ count_words s + other_white_space s.
Proof.
  rewrite !count_words_occurrences.
  pose proof (collapse_from_spaces s 0) as H.
  rewrite white_space_split in H. unfold collapse_spaces, Re.sub. lia.
Qed.

Lemma remove_book_headers_word_count s :
  count_words (remove_book_headers s) ≤ count_words s + line_breaks s.
Proof.
  unfold remove_book_headers, line_breaks.
  set (lines := Py.split [CR; LF] s).
  rewrite foldl_poem. cbn [poem rbh_init app].
  rewrite (count_words_occurrences (Py.join _ _)), occurrences_join_single.
  pose proof (kept_from_length lines rbh_init) as Hlen.
  pose proof (kept_from_occurrences SPACE lines rbh_init) as Hocc.
  assert (occurrences SPACE (concat lines) = occurrences SPACE s) as Hs.
  { apply split_occurrences; [done|].
    apply (bool_decide_unpack _). by vm_compute. }
  assert (0 < length lines) as Hpos.
  { subst lines. unfold Py.split.
    pose proof (split_from_not_nil [CR; LF] 0 s).
    destruct (Py.split_from [CR; LF] 0 s); [done | simpl; lia]. }
  rewrite count_words_occurrences.
  destruct (kept_from rbh_init lines); lia.
Qed.

(** C1, as the code has it: stripping digits, removing bracketed comments
    and removing stopwords do not increase the word count.  Collapsing
    white space and removing book headers put a space where other white
    space or a line break stood, so there the count can grow, by at most
    the number of white space characters other than the space, and by at
    most the number of line breaks. *)
Theorem cleaning_stages_word_count s :
  count_words (strip_digits s) ≤ count_words s
  ∧ count_words (remove_brackets s) ≤ count_words s
  ∧ count_words (remove_stopwords english lower s) ≤ count_words s
  ∧ count_words (collapse_spaces s) ≤ count_words s + other_white_space s
  ∧ count_words (remove_book_headers s) ≤ count_words s + line_breaks s.
Proof.
  split_and!.
  - by rewrite strip_digits_word_count.
  - apply remove_brackets_word_count.
  - apply remove_stopwords_word_count.
  - apply collapse_spaces_word_count.
  - apply remove_book_headers_word_count.
Qed.

End Stages.

(** C1 as stated fails: header removal joins the lines with spaces, and
    the white space step turns a tabulation into a space. *)
Lemma cleaning_stages_can_add_words :
  ¬ (∀ s, count_words (remove_book_headers s) ≤ count_words s)
  ∧ ¬ (∀ s, count_words (collapse_spaces s) ≤ count_words s).
Proof.
  split.
  - intros H. specialize (H (py "a" ++ [CR; LF] ++ py "b")).
    vm_compute in H. lia.
  - intros H. specialize (H (py "a" ++ [9%N] ++ py "b")).
    vm_compute in H. lia.
Qed.

(** * Bracketed comments *)

Section BracketedComments.

Implicit Types (pre mid rest a b c : str).

Lemma remove_brackets_prefix pre rest :
  LBRACKET ∉ pre → remove_brackets (pre ++ rest) = pre ++ remove_brackets rest.
Proof.
  induction pre as [|x pre IH]; [done|].
  rewrite not_elem_of_cons. intros [Hx Hpre]. cbn [app].
  rewrite remove_brackets_cons, decide_False by congruence.
  by rewrite IH.
Qed.

(** C6: the match is not greedy.  A span from an opening bracket to the
    nearest closing bracket after it, with no line feed between them, is
    removed; an opening bracket with no closing bracket after it stays;
    of two nested comments only the span up to the first closing bracket
    is removed, and the second closing bracket stays. *)
Theorem remove_brackets_non_greedy pre mid rest a b c :
  (LBRACKET ∉ pre → RBRACKET ∉ mid → LF ∉ mid →
   remove_brackets (pre ++ LBRACKET :: mid ++ RBRACKET :: rest) =
   pre ++ remove_brackets rest)
  ∧ (RBRACKET ∉ rest →
     remove_brackets (pre ++ LBRACKET :: rest) =
     remove_brackets pre ++ LBRACKET :: rest)
  ∧ (RBRACKET ∉ a → LF ∉ a → RBRACKET ∉ b → LF ∉ b → LBRACKET ∉ c →
     remove_brackets
       (LBRACKET :: a ++ LBRACKET :: b ++ RBRACKET :: c ++ RBRACKET :: rest) =
     c ++ RBRACKET :: remove_brackets rest).
Proof.
  split_and!.
  - apply remove_brackets_span.
  - intros Hrest. apply (remove_brackets_app_no_close (length pre)); [done|].
    rewrite not_elem_of_cons. split; [done | exact Hrest].
  - intros Ha Hna Hb Hnb Hc.
    pose proof (remove_brackets_span [] (a ++ LBRACKET :: b)
                  (c ++ RBRACKET :: rest)) as H.
    cbn [app] in H. rewrite <- app_assoc in H. cbn [app] in H.
    rewrite H.
    + rewrite remove_brackets_prefix by done.
      by rewrite remove_brackets_cons, decide_False.
    + apply not_elem_of_nil.
    + rewrite not_elem_of_app, not_elem_of_cons. by split_and!.
    + rewrite not_elem_of_app, not_elem_of_cons. by split_and!.
Qed.

End BracketedComments.

Lemma remove_brackets_non_greedy_witness :
  remove_brackets (py "x[note]y") = py "xy"
  ∧ remove_brackets (py "x[y") = py "x[y"
  ∧ remove_brackets (py "[a[b]c]d") = py "c]d".
Proof.
  pose proof (remove_brackets_non_greedy
                (py "x") (py "note") (py "y") (py "a") (py "b") (py "c"))
    as (H1 & _ & _).
  pose proof (remove_brackets_non_greedy
                (py "x") [] (py "y") (py "a") (py "b") (py "c"))
    as (_ & H2 & _).
  pose proof (remove_brackets_non_greedy
                [] [] (py "d") (py "a") (py "b") (py "c"))
    as (_ & _ & H3).
  split_and!.
  - apply H1; apply (bool_decide_unpack _); vm_compute; exact I.
  - apply H2; apply (bool_decide_unpack _); vm_compute; exact I.
  - apply H3; apply (bool_decide_unpack _); vm_compute; exact I.
Defined.

(** * Book headers *)

Section BookHeaders.

Implicit Types (iliad m : str) (pre hdr body rest : list str).

Lemma remove_book_headers_kept iliad :
  remove_book_headers iliad =
  Py.join [SPACE] (kept_from rbh_init (Py.split [CR; LF] iliad)).
Proof. unfold remove_book_headers. by rewrite foldl_poem. Qed.

(** C2, as the code has it: let a line [m] containing ['BOOK '] occur in
    the text for the first time, be followed by lines [hdr] among which
    every line with ['BOOK '] is read for the first time, occur again, and
    be followed by lines [body] of the poem without ['BOOK '].  Then the
    first occurrence and the lines [hdr] are left out, and the second
    occurrence and the poem lines are in the output, between what is kept
    of the lines before and of the lines after.  The toggle is closed by a
    marker line not seen before and opened by one seen before; after the
    repeat the toggle is open and the line stays among the markers. *)
Theorem remove_book_headers_toggle iliad pre m hdr body rest :
  Py.split [CR; LF] iliad = pre ++ m :: hdr ++ m :: body ++ rest →
  Py.contains (py "BOOK ") m = true →
  m ∉ pre →
  no_repeated_marker (pre ++ [m]) hdr = true →
  Forall (λ s, Py.contains (py "BOOK ") s = false) body →
  let after := foldl rbh_step rbh_init (pre ++ m :: hdr ++ m :: body) in
  remove_book_headers iliad =
    Py.join [SPACE]
      (kept_from rbh_init pre ++ m :: body ++ kept_from after rest)
  ∧ is_poem (foldl rbh_step rbh_init (pre ++ [m])) = false
  ∧ is_poem (foldl rbh_step rbh_init (pre ++ m :: hdr ++ [m])) = true
  ∧ is_poem after = true
  ∧ m ∈ book_markers after
  ∧ (∀ st, is_poem (rbh_step st m) = bool_decide (m ∈ book_markers st)).
Proof.
  intros Hlines Hm Hpre Hhdr Hbody after.
  set (st0 := foldl rbh_step rbh_init pre).
  assert (m ∉ book_markers st0) as Hnew.
  { intros [H|H]%markers_seen; [|done]. cbn in H. by apply elem_of_empty in H. }
  set (st1 := rbh_step st0 m).
  assert (st1 = {| poem := poem st0; book_markers := {[m]} ∪ book_markers st0;
                   is_poem := false |}) as Hst1
    by (by apply rbh_step_first).
  assert (∀ x, x ∈ book_markers st1 → x ∈ pre ++ [m]) as Hseen.
  { intros x. rewrite Hst1. cbn [book_markers].
    rewrite elem_of_union, elem_of_singleton, elem_of_app.
    intros [->|[H|H]%markers_seen].
    - right. apply list_elem_of_here.
    - cbn in H. by apply elem_of_empty in H.
    - by left. }
  destruct (first_time_lines hdr st1 (pre ++ [m])) as [Hk Hoff];
    [by rewrite Hst1 | done | done |].
  set (st2 := foldl rbh_step st1 hdr) in *.
  assert (m ∈ book_markers st2) as Hin.
  { apply markers_grow. rewrite Hst1. cbn.
    apply elem_of_union_l. by apply elem_of_singleton. }
  set (st3 := rbh_step st2 m).
  assert (st3 = {| poem := poem st2 ++ [m]; book_markers := book_markers st2;
                   is_poem := true |}) as Hst3
    by (by apply rbh_step_repeat).
  destruct (plain_lines body st3 Hbody) as (Hkb & Hpb & Hmb).
  assert (after = foldl rbh_step st3 body) as Hafter.
  { unfold after. rewrite foldl_app. cbn [foldl]. fold st0. fold st1.
    rewrite foldl_app. cbn [foldl]. done. }
  split_and!.
  - rewrite remove_book_headers_kept, Hlines, kept_from_app. fold st0.
    rewrite kept_from_cons. fold st1. rewrite Hst1 at 1. cbn [is_poem app].
    rewrite kept_from_app, Hk. fold st2. cbn [app].
    rewrite kept_from_cons. fold st3. rewrite Hst3 at 1. cbn [is_poem app].
    rewrite kept_from_app, Hkb. rewrite Hst3 at 1. cbn [is_poem].
    by rewrite Hafter.
  - rewrite foldl_app. cbn [foldl]. fold st0. fold st1. by rewrite Hst1.
  - rewrite foldl_app. cbn [foldl]. fold st0. fold st1.
    rewrite foldl_app. cbn [foldl]. fold st2. fold st3. by rewrite Hst3.
  - rewrite Hafter, Hpb. by rewrite Hst3.
  - rewrite Hafter, Hmb. by rewrite Hst3.
  - intros st. destruct (decide (m ∈ book_markers st)) as [Hin'|Hout].
    + rewrite rbh_step_repeat by done. by rewrite bool_decide_eq_true_2.
    + rewrite rbh_step_first by done. by rewrite bool_decide_eq_false_2.
Qed.

End BookHeaders.

Lemma remove_book_headers_toggle_witness :
  remove_book_headers mini_poem =
    py "A TRANSLATION BOOK I. Sing, Muse, the wrath of Achilles"
  ∧ remove_book_headers
      (py "BOOK I." ++ [CR; LF] ++ py "THE BOOK OF WRATH" ++ [CR; LF]
       ++ py "BOOK I." ++ [CR; LF] ++ py "Sing, Muse") =
    py "BOOK I. Sing, Muse".
Proof.
  split.
  - pose proof (remove_book_headers_toggle mini_poem
      [py "A TRANSLATION"] (py "BOOK I.") [py "ARGUMENT OF THE FIRST BOOK."]
      [py "Sing, Muse, the wrath"; py "of Achilles"] []) as H.
    destruct H as (H & _).
    + vm_compute. reflexivity.
    + vm_compute. reflexivity.
    + apply (bool_decide_unpack _). vm_compute. exact I.
    + vm_compute. reflexivity.
    + repeat constructor.
    + rewrite H. vm_compute. reflexivity.
  - pose proof (remove_book_headers_toggle
      (py "BOOK I." ++ [CR; LF] ++ py "THE BOOK OF WRATH" ++ [CR; LF]
       ++ py "BOOK I." ++ [CR; LF] ++ py "Sing, Muse")
      [] (py "BOOK I.") [py "THE BOOK OF WRATH"] [py "Sing, Muse"] []) as H.
    destruct H as (H & _).
    + vm_compute. reflexivity.
    + vm_compute. reflexivity.
    + apply not_elem_of_nil.
    + vm_compute. reflexivity.
    + repeat constructor.
    + rewrite H. vm_compute. reflexivity.
Defined.

(** C2 as stated fails when a marker line seen before stands between the
    two occurrences: it opens the toggle, and the header lines after it
    are kept. *)
Lemma remove_book_headers_keeps_header_lines :
  ¬ (∀ iliad pre m hdr body rest,
       Py.split [CR; LF] iliad = pre ++ m :: hdr ++ m :: body ++ rest →
       Py.contains (py "BOOK ") m = true →
       m ∉ pre → m ∉ hdr →
       Forall (λ s, Py.contains (py "BOOK ") s = false) body →
       remove_book_headers iliad =
       Py.join [SPACE]
         (kept_from rbh_init pre ++ m :: body ++
          kept_from (foldl rbh_step rbh_init (pre ++ m :: hdr ++ m :: body))
            rest)).
Proof.
  intros H.
  specialize (H (py "BOOK II." ++ [CR; LF] ++ py "BOOK I." ++ [CR; LF]
                 ++ py "BOOK II." ++ [CR; LF] ++ py "argument" ++ [CR; LF]
                 ++ py "BOOK I." ++ [CR; LF] ++ py "poem")
                [py "BOOK II."] (py "BOOK I.") [py "BOOK II."; py "argument"]
                [py "poem"] []).
  assert (remove_book_headers
            (py "BOOK II." ++ [CR; LF] ++ py "BOOK I." ++ [CR; LF]
             ++ py "BOOK II." ++ [CR; LF] ++ py "argument" ++ [CR; LF]
             ++ py "BOOK I." ++ [CR; LF] ++ py "poem")
          = py "BOOK II. argument BOOK I. poem") as Hout
    by (vm_compute; reflexivity).
  rewrite Hout in H. clear Hout.
  assert (py "BOOK II. argument BOOK I. poem" = py "BOOK I. poem") as Habs.
  { rewrite H.
    - vm_compute. reflexivity.
    - vm_compute. reflexivity.
    - vm_compute. reflexivity.
    - apply (bool_decide_unpack _). vm_compute. exact I.
    - apply (bool_decide_unpack _). vm_compute. exact I.
    - repeat constructor. }
  vm_compute in Habs. discriminate.
Qed.

(** * Stopwords *)

Section StopwordTokens.

Variable english : list str.
Variable lower : str → str.

Implicit Types (iliad t : str).

(** C3, as the code has it: no token of the output has a lower-case form
    in the stopword set (which does not hold the empty string), and every
    token of the output other than the empty one is a token of the input
    whose lower-case form is not in the set.  The tokens of the output are
    the surviving tokens of the input in their order; when no token
    survives, the output is the empty string, which has one empty token. *)
Theorem remove_stopwords_tokens iliad :
  (lower [] ∉ english →
   ∀ t, t ∈ Py.split [SPACE] (remove_stopwords english lower iliad) →
        lower t ∉ english)
  ∧ (∀ t, t ∈ Py.split [SPACE] (remove_stopwords english lower iliad) →
          t ≠ [] → t ∈ Py.split [SPACE] iliad ∧ lower t ∉ english)
  ∧ (surviving english lower iliad ≠ [] →
     Py.split [SPACE] (remove_stopwords english lower iliad) =
     surviving english lower iliad)
  ∧ (surviving english lower iliad = [] →
     remove_stopwords english lower iliad = []).
Proof.
  pose proof (tokens_of_remove_stopwords english lower iliad) as Htok.
  assert (∀ t, t ∈ surviving english lower iliad →
               t ∈ Py.split [SPACE] iliad ∧ lower t ∉ english) as Hsurv.
  { intros t [? ?]%list_elem_of_filter. done. }
  split_and!.
  - intros Hempty t. rewrite Htok.
    destruct (surviving english lower iliad) as [|w ws] eqn:E.
    + by intros ->%list_elem_of_singleton.
    + intros Ht. by apply Hsurv.
  - intros t. rewrite Htok.
    destruct (surviving english lower iliad) as [|w ws] eqn:E.
    + by intros ->%list_elem_of_singleton.
    + intros Ht _. by apply Hsurv.
  - intros Hne. rewrite Htok.
    by destruct (surviving english lower iliad).
  - intros Hnil. by rewrite remove_stopwords_join, Hnil.
Qed.

End StopwordTokens.

Lemma remove_stopwords_tokens_witness :
  (∀ t, t ∈ Py.split [SPACE]
              (remove_stopwords nltk_english lower_ascii
                 (py "Sing of the wrath")) →
        lower_ascii t ∉ nltk_english)
  ∧ Py.split [SPACE]
      (remove_stopwords nltk_english lower_ascii (py "Sing of the wrath")) =
    [py "Sing"; py "wrath"].
Proof.
  destruct (remove_stopwords_tokens nltk_english lower_ascii
              (py "Sing of the wrath")) as (H1 & _ & H3 & _).
  split.
  - apply H1. apply (bool_decide_unpack _). vm_compute. exact I.
  - rewrite H3.
    + vm_compute. reflexivity.
    + vm_compute. discriminate.
Defined.

(** C3 as stated fails on a text of stopwords only: the output is empty,
    and its one token, the empty one, is not a token of the input. *)
Lemma remove_stopwords_token_not_of_input :
  ¬ (∀ iliad t,
       t ∈ Py.split [SPACE] (remove_stopwords nltk_english lower_ascii iliad) →
       t ∈ Py.split [SPACE] iliad ∧ lower_ascii t ∉ nltk_english).
Proof.
  intros H. destruct (H (py "the") []) as [Hin _].
  - vm_compute. apply list_elem_of_here.
  - vm_compute in Hin. apply list_elem_of_singleton in Hin. discriminate.
Qed.

(** * The script *)

Section Find.

Implicit Types (sub l : str) (i : Z).

Lemma find_from_absent sub : ∀ l i,
  Py.contains sub l = false → Py.find_from sub l i = (-1)%Z.
Proof.
  induction l as [|c l IH]; intros i; cbn [Py.contains Py.find_from].
  - by intros ->.
  - intros [-> Hl]%orb_false_elim. by apply IH.
Qed.

Lemma find_from_present sub : ∀ l i,
  Py.contains sub l = true → (i ≤ Py.find_from sub l i)%Z.
Proof.
  induction l as [|c l IH]; intros i; cbn [Py.contains Py.find_from].
  - intros ->. lia.
  - destruct (Py.startswith sub (c :: l)); [lia|].
    cbn [orb]. intros H. specialize (IH (i + 1)%Z H). lia.
Qed.

(** [find] answers [-1] exactly when the string does not occur. *)
Lemma find_absent_iff sub l :
  Py.find sub l = (-1)%Z ↔ Py.contains sub l = false.
Proof.
  split.
  - intros H. destruct (Py.contains sub l) eqn:E; [|done].
    pose proof (find_from_present sub l 0 E). unfold Py.find in H. lia.
  - apply find_from_absent.
Qed.

End Find.

Section ScriptRuns.

Variable english : list str.
Variable lower : str → str.
Variable Scores : Type.
Variable polarity_scores : str → Scores.

Implicit Types (text g : str) (out : list (line Scores)) (w : World Scores).

#[local] Abbreviation run_script :=
  (script english lower Scores polarity_scores).

Lemma get_Iliad_value text g out :
  get_Iliad Scores (MkWorld (Ok text) g out) =
  Ok (body text, MkWorld (Ok text) g out).
Proof. done. Qed.

Lemma script_value text g out :
  let modern := modernize_sentences (clean_poem (body text)) in
  let final := remove_stopwords english lower modern in
  run_script (MkWorld (Ok text) g out) =
  Ok (tt, MkWorld (Ok text) final
            (out ++ [Downloaded (count_words (body text));
                     Contains (count_words modern);
                     WithoutStopwords (count_words final);
                     Analyzing (count_words final);
                     ResultsHeader;
                     Json (polarity_scores final)])).
Proof.
  intros modern final. unfold script, sentiment_analysis.
  cbv [mbind M_bind rebind get_Iliad download_Iliad load_iliad store_iliad
       print mret M_ret network g_iliad stdout].
  fold (body text). fold modern. fold final.
  by rewrite <- !app_assoc.
Qed.

Lemma program_with_data w :
  program lower Scores (Ok polarity_scores) (Ok english) w = run_script w.
Proof. destruct w as [[text|e] g out]; reflexivity. Qed.

(** C7, as the code has it: a text without one of the two delimiters
    raises nothing.  [find] answers [-1], the slice is taken with that
    bound, [get_Iliad] returns the text it gets that way, and with the
    NLTK data the script runs to its end on it. *)
Theorem missing_delimiter_no_fault text g out :
  Py.contains (py "ENGLISH BLANK VERSE.") text = false
  ∨ Py.contains (py "FOOTNOTES") text = false →
  (Py.find (py "ENGLISH BLANK VERSE.") text = (-1)%Z
   ∨ Py.find (py "FOOTNOTES") text = (-1)%Z)
  ∧ get_Iliad Scores (MkWorld (Ok text) g out) =
    Ok (body text, MkWorld (Ok text) g out)
  ∧ (∃ w, program lower Scores (Ok polarity_scores) (Ok english)
            (MkWorld (Ok text) g out) = Ok (tt, w)).
Proof.
  intros Hmissing. split_and!.
  - destruct Hmissing as [H|H]; [left | right]; by apply find_absent_iff.
  - apply get_Iliad_value.
  - eexists. rewrite program_with_data. apply script_value.
Qed.

End ScriptRuns.

Lemma missing_delimiter_no_fault_witness :
  ∃ w, program lower_ascii unit (Ok (λ _, tt)) (Ok nltk_english)
         (MkWorld (Ok (py "Sing, Muse")) [] []) = Ok (tt, w).
Proof.
  destruct (missing_delimiter_no_fault nltk_english lower_ascii unit
              (λ _, tt) (py "Sing, Muse") [] []) as (_ & _ & H).
  - left. vm_compute. reflexivity.
  - exact H.
Defined.

(** C7 as stated fails: without the delimiters the script still ends with
    a value. *)
Lemma missing_delimiter_script_returns :
  ¬ (∀ text,
       Py.contains (py "ENGLISH BLANK VERSE.") text = false
       ∨ Py.contains (py "FOOTNOTES") text = false →
       ∃ e, program lower_ascii unit (Ok (λ _, tt)) (Ok nltk_english)
              (MkWorld (Ok text) [] []) = Raise e).
Proof.
  intros H. destruct (H (py "Sing, Muse")) as [e He].
  - left. vm_compute. reflexivity.
  - vm_compute in He. discriminate.
Qed.

(** * Further properties of the functions *)

(** ** Occurrences of a string in a text *)

Section Occurrences.

Implicit Types (sub p l q : str) (n m : nat) (i j : Z).

Lemma startswith_length p l : Py.startswith p l = true → length p ≤ length l.
Proof.
  intros H. apply startswith_inv in H. rewrite H, length_app. lia.
Qed.

Lemma startswith_take_le : ∀ p l n,
  Py.startswith p (take n l) = true →
  Py.startswith p l = true ∧ length p ≤ n.
Proof.
  induction p as [|a p IH]; intros l n H.
  - split; [done | simpl; lia].
  - destruct n as [|n]; destruct l as [|b l]; cbn in H; try done.
    apply andb_prop in H as [Hab Hp]. apply IH in Hp as [Hp Hn].
    cbn. rewrite Hab, Hp. split; [done | lia].
Qed.

(** An occurrence in a slice is an occurrence in the text. *)
Lemma startswith_drop_take p l n m :
  p ≠ [] → Py.startswith p (drop n (take m l)) = true →
  Py.startswith p (drop n l) = true ∧ n + length p ≤ m.
Proof.
  intros Hp H. destruct (decide (n ≤ m)) as [Hnm|Hnm].
  - replace m with (n + (m - n)) in H by lia.
    rewrite <- take_drop_commute in H.
    apply startswith_take_le in H as [H Hlen]. split; [done | lia].
  - rewrite drop_ge in H by (rewrite length_take; lia).
    by destruct p.
Qed.

Lemma contains_at sub : ∀ l n,
  n ≤ length l → Py.startswith sub (drop n l) = true →
  Py.contains sub l = true.
Proof.
  induction l as [|c l IH]; intros n Hn H.
  - cbn in Hn. replace n with 0 in H by lia. done.
  - cbn [Py.contains]. destruct n as [|n].
    + cbn [drop] in H. by rewrite H.
    + cbn [drop length] in *. rewrite (IH n) by (done || lia).
      apply orb_true_r.
Qed.

Lemma contains_occurs sub : ∀ l,
  Py.contains sub l = true →
  ∃ n, n ≤ length l ∧ Py.startswith sub (drop n l) = true.
Proof.
  induction l as [|c l IH]; cbn [Py.contains].
  - intros H. exists 0. done.
  - intros [H|H]%orb_prop.
    + exists 0. split; [lia | done].
    + destruct (IH H) as (n & Hn & Hs). exists (S n).
      split; [simpl; lia | done].
Qed.

(** [find] answers an index at which the string occurs ... *)
Lemma find_from_found sub : ∀ l i j,
  Py.find_from sub l i = j → (0 ≤ i)%Z → (0 ≤ j)%Z →
  (i ≤ j)%Z ∧ Z.to_nat (j - i) ≤ length l
  ∧ Py.startswith sub (drop (Z.to_nat (j - i)) l) = true.
Proof.
  induction l as [|c l IH]; intros i j; cbn [Py.find_from].
  - destruct (Py.startswith sub []) eqn:E; intros <- Hi Hj; [|lia].
    replace (i - i)%Z with 0%Z by lia. done.
  - destruct (Py.startswith sub (c :: l)) eqn:E.
    + intros <- Hi Hj. replace (i - i)%Z with 0%Z by lia.
      split_and!; [lia | simpl; lia | done].
    + intros H Hi Hj. apply IH in H as (Hle & Hlen & Hs); [|lia|lia].
      replace (Z.to_nat (j - i)) with (S (Z.to_nat (j - (i + 1)))) by lia.
      split_and!; [lia | simpl; lia | done].
Qed.

(** ... and the lowest one. *)
Lemma find_from_lowest sub : ∀ l i n,
  n ≤ length l → Py.startswith sub (drop n l) = true →
  (i ≤ Py.find_from sub l i ≤ i + Z.of_nat n)%Z.
Proof.
  induction l as [|c l IH]; intros i n Hn H; cbn [Py.find_from].
  - cbn in Hn. replace n with 0 in * by lia. cbn in H. rewrite H. lia.
  - destruct (Py.startswith sub (c :: l)) eqn:E; [lia|].
    destruct n as [|n]; [cbn in H; congruence|].
    cbn [drop length] in *. specialize (IH (i + 1)%Z n ltac:(lia) H). lia.
Qed.

Lemma find_found sub l :
  (0 ≤ Py.find sub l)%Z →
  Z.to_nat (Py.find sub l) ≤ length l
  ∧ Py.startswith sub (drop (Z.to_nat (Py.find sub l)) l) = true.
Proof.
  intros Hj.
  destruct (find_from_found sub l 0 (Py.find sub l) eq_refl) as (_ & H1 & H2);
    [lia | done |].
  by rewrite Z.sub_0_r in H1, H2.
Qed.

Lemma find_lowest sub l n :
  n ≤ length l → Py.startswith sub (drop n l) = true →
  (0 ≤ Py.find sub l ≤ Z.of_nat n)%Z.
Proof.
  intros Hn H. pose proof (find_from_lowest sub l 0 n Hn H).
  unfold Py.find. lia.
Qed.

Lemma find_range sub l : (-1 ≤ Py.find sub l)%Z.
Proof.
  destruct (Py.contains sub l) eqn:E.
  - pose proof (find_from_present sub l 0 E). unfold Py.find. lia.
  - apply find_absent_iff in E. lia.
Qed.

End Occurrences.

(** ** The body cut out by [get_Iliad] *)

Section Body.

Implicit Types (text mid : str).

#[local] Abbreviation header := (py "ENGLISH BLANK VERSE.").
#[local] Abbreviation footer := (py "FOOTNOTES").

Lemma adjust_index_pos i len :
  (0 ≤ i)%Z → Py.adjust_index i len = Z.min i len.
Proof.
  intros Hi. unfold Py.adjust_index. by destruct (Z.ltb_spec i 0); [lia|].
Qed.

Lemma adjust_index_neg i len :
  (i < 0)%Z → Py.adjust_index i len = Z.max 0 (i + len).
Proof.
  intros Hi. unfold Py.adjust_index. by destruct (Z.ltb_spec i 0); [|lia].
Qed.

Lemma adjust_index_range i len :
  (0 ≤ len)%Z → (0 ≤ Py.adjust_index i len ≤ len)%Z.
Proof.
  intros Hlen. unfold Py.adjust_index. destruct (Z.ltb_spec i 0); lia.
Qed.

Lemma body_unfold text :
  body text =
  let len := Z.of_nat (length text) in
  let a := Py.adjust_index (Py.find header text) len in
  let b := Py.adjust_index (Py.find footer text) len in
  take (Z.to_nat (b - a)) (drop (Z.to_nat a) text).
Proof. done. Qed.

(** The body never holds the footer delimiter: it ends before the first
    ['FOOTNOTES'] of the text, if there is one. *)
Theorem body_without_footer text :
  Py.contains footer (body text) = false.
Proof.
  destruct (Py.contains footer (body text)) eqn:E; [exfalso | done].
  apply contains_occurs in E as (n & _ & Hs).
  rewrite body_unfold in Hs. cbv zeta in Hs.
  apply startswith_drop_take in Hs as [Hs Hlen]; [|done].
  rewrite drop_drop in Hs.
  pose proof (startswith_length _ _ Hs) as Hp. rewrite length_drop in Hp.
  change (length footer) with 9 in *.
  match type of Hs with Py.startswith _ (drop ?p _) = _ =>
    pose proof (find_lowest footer text p ltac:(lia) Hs) as Hj end.
  rewrite (adjust_index_pos (Py.find footer text)) in Hlen by lia.
  pose proof (adjust_index_range (Py.find header text)
                (Z.of_nat (length text)) ltac:(lia)).
  lia.
Qed.

(** Without the header delimiter the body is empty, whatever else the
    text holds. *)
Lemma body_without_header text :
  Py.contains header text = false → body text = [].
Proof.
  intros H. apply find_absent_iff in H.
  rewrite body_unfold. cbv zeta. rewrite H.
  pose proof (find_range footer text) as Hr.
  replace (Z.to_nat _) with 0 at 1; [done|].
  rewrite (adjust_index_neg (-1)) by lia.
  destruct (Z.ltb_spec (Py.find footer text) 0) as [Hneg|Hpos].
  - replace (Py.find footer text) with (-1)%Z by lia.
    rewrite (adjust_index_neg (-1)) by lia. lia.
  - destruct (find_found footer text Hpos) as [Hn Hs].
    apply startswith_length in Hs. rewrite length_drop in Hs.
    change (length footer) with 9 in Hs.
    rewrite adjust_index_pos by done. lia.
Qed.

(** With the header delimiter but without the footer delimiter, the body
    runs from the header to the end of the text, less its last character:
    the bound [-1] that [find] answers is taken as an index from the end. *)
Theorem body_without_footer_delimiter text :
  Py.contains header text = true →
  Py.contains footer text = false →
  ∃ c, drop (Z.to_nat (Py.find header text)) text = body text ++ [c].
Proof.
  intros Hh Hf. apply find_absent_iff in Hf.
  pose proof (find_from_present header text 0 Hh) as Hi.
  fold (Py.find header text) in Hi.
  destruct (find_found header text Hi) as [Hn Hs].
  apply startswith_length in Hs. rewrite length_drop in Hs.
  change (length header) with 20 in Hs.
  rewrite body_unfold. cbv zeta. rewrite Hf.
  rewrite (adjust_index_pos (Py.find header text)) by lia.
  rewrite (adjust_index_neg (-1)) by lia.
  rewrite Z.min_l by lia.
  set (x := drop (Z.to_nat (Py.find header text)) text).
  assert (length x = length text - Z.to_nat (Py.find header text)) as Hx
    by apply length_drop.
  replace (Z.to_nat _) with (length x - 1) by lia.
  destruct (drop (length x - 1) x) as [|c [|d rest]] eqn:E.
  - apply (f_equal length) in E. rewrite length_drop in E. simpl in E. lia.
  - exists c. by rewrite <- E, take_drop.
  - apply (f_equal length) in E. rewrite length_drop in E. simpl in E. lia.
Qed.

(** With the header delimiter at [i] and the footer delimiter at [j] after
    it, the body is the text from [i] up to [j]: it begins with the header
    delimiter itself and stops right before the footer delimiter.  With
    the footer delimiter first, the body is empty. *)
Theorem body_between_delimiters text :
  let i := Py.find header text in
  let j := Py.find footer text in
  ((0 ≤ i)%Z → (i + 20 ≤ j)%Z →
   ∃ mid, body text = header ++ mid
          ∧ text = take (Z.to_nat i) text ++ body text ++ drop (Z.to_nat j) text
          ∧ Py.startswith footer (drop (Z.to_nat j) text) = true)
  ∧ ((0 ≤ j)%Z → (j ≤ i)%Z → body text = []).
Proof.
  intros i j. split.
  - intros Hi Hij.
    destruct (find_found header text Hi) as [Hn Hs].
    destruct (find_found footer text ltac:(fold j; lia)) as [Hm Hf].
    fold i in Hn, Hs. fold j in Hm, Hf.
    assert (body text = take (Z.to_nat j - Z.to_nat i) (drop (Z.to_nat i) text))
      as Hbody.
    { rewrite body_unfold. cbv zeta. fold i j.
      rewrite !adjust_index_pos by lia. rewrite !Z.min_l by lia.
      f_equal. lia. }
    apply startswith_inv in Hs. change (length header) with 20 in Hs.
    exists (take (Z.to_nat j - Z.to_nat i - 20)
              (drop 20 (drop (Z.to_nat i) text))).
    split_and!.
    + rewrite Hbody. rewrite Hs at 1. rewrite take_app.
      change (length header) with 20. by rewrite take_ge by (simpl; lia).
    + rewrite Hbody, app_assoc, take_take_drop.
      replace (Z.to_nat i + (Z.to_nat j - Z.to_nat i)) with (Z.to_nat j)
        by lia.
      by rewrite take_drop.
    + done.
  - intros Hj Hji. rewrite body_unfold. cbv zeta. fold i j.
    pose proof (adjust_index_range i (Z.of_nat (length text)) ltac:(lia)).
    rewrite !adjust_index_pos in * by lia.
    replace (Z.to_nat _) with 0 at 1 by lia. done.
Qed.

End Body.

Lemma body_without_footer_delimiter_witness :
  ∃ c, py "ENGLISH BLANK VERSE. Sing, Muse." =
       body (py "Title. ENGLISH BLANK VERSE. Sing, Muse.") ++ [c].
Proof.
  apply (body_without_footer_delimiter
           (py "Title. ENGLISH BLANK VERSE. Sing, Muse.")).
  - vm_compute. reflexivity.
  - vm_compute. reflexivity.
Defined.

Lemma body_between_delimiters_witness :
  (∃ mid,
     body (py "Title. ENGLISH BLANK VERSE. Sing. FOOTNOTES 1.") =
       py "ENGLISH BLANK VERSE." ++ mid
     ∧ py "Title. ENGLISH BLANK VERSE. Sing. FOOTNOTES 1." =
       py "Title. "
       ++ body (py "Title. ENGLISH BLANK VERSE. Sing. FOOTNOTES 1.")
       ++ py "FOOTNOTES 1."
     ∧ Py.startswith (py "FOOTNOTES") (py "FOOTNOTES 1.") = true)
  ∧ body (py "FOOTNOTES ENGLISH BLANK VERSE. Sing.") = [].
Proof.
  split.
  - apply (body_between_delimiters
             (py "Title. ENGLISH BLANK VERSE. Sing. FOOTNOTES 1."));
      vm_compute; discriminate.
  - apply (body_between_delimiters
             (py "FOOTNOTES ENGLISH BLANK VERSE. Sing."));
      vm_compute; discriminate.
Defined.

Section EmptyBody.

Variable english : list str.
Variable lower : str → str.
Variable Scores : Type.
Variable polarity_scores : str → Scores.

Implicit Types (text g : str) (out : list (line Scores)).

Lemma remove_stopwords_nil : remove_stopwords english lower [] = [].
Proof.
  rewrite remove_stopwords_join. unfold surviving.
  change (Py.split [SPACE] []) with [[] : str].
  rewrite filter_cons, filter_nil. by case_decide.
Qed.

(** A text without the header delimiter gives an empty body: the script
    reports one word at every stage and hands the empty string to the
    scorer. *)
Theorem missing_header_empty_run text g out :
  Py.contains (py "ENGLISH BLANK VERSE.") text = false →
  body text = []
  ∧ script english lower Scores polarity_scores (MkWorld (Ok text) g out) =
    Ok (tt, MkWorld (Ok text) []
              (out ++ [Downloaded 1; Contains 1; WithoutStopwords 1;
                       Analyzing 1; ResultsHeader;
                       Json (polarity_scores [])])).
Proof.
  intros H. apply body_without_header in H. split; [done|].
  rewrite script_value. cbv zeta. rewrite H.
  change (modernize_sentences (clean_poem [])) with ([] : str).
  by rewrite remove_stopwords_nil.
Qed.

End EmptyBody.

Lemma missing_header_empty_run_witness :
  body (py "Sing, Muse. FOOTNOTES 1.") = []
  ∧ script nltk_english lower_ascii nat (λ s, length s)
      (MkWorld (Ok (py "Sing, Muse. FOOTNOTES 1.")) [] []) =
    Ok (tt, MkWorld (Ok (py "Sing, Muse. FOOTNOTES 1.")) []
              [Downloaded 1; Contains 1; WithoutStopwords 1;
               Analyzing 1; ResultsHeader; Json 0]).
Proof.
  apply (missing_header_empty_run nltk_english lower_ascii nat
           (λ s, length s) (py "Sing, Muse. FOOTNOTES 1.") [] []).
  vm_compute. reflexivity.
Defined.

(** ** Lines and line breaks *)

Section Lines.

Implicit Types (sep sub l r p piece : str) (c : char) (k : nat)
  (pieces : list str).

Lemma startswith_app_r : ∀ p l r,
  Py.startswith p l = true → Py.startswith p (l ++ r) = true.
Proof.
  induction p as [|a p IH]; intros [|b l] r H; cbn in *; try done.
  apply andb_prop in H as [-> Hp]. by rewrite (IH _ _ Hp).
Qed.

Lemma contains_app_r sub : ∀ l r,
  Py.contains sub l = true → Py.contains sub (l ++ r) = true.
Proof.
  induction l as [|c l IH]; intros r.
  - cbn [Py.contains]. intros H. apply (contains_at sub r 0); [lia|].
    destruct sub; [destruct r|]; done.
  - cbn [app Py.contains]. intros [H|H]%orb_prop.
    + apply (startswith_app_r _ _ r) in H. cbn [app] in H. by rewrite H.
    + rewrite (IH r H). apply orb_true_r.
Qed.

Lemma contains_app_l sub : ∀ p l,
  Py.contains sub l = true → Py.contains sub (p ++ l) = true.
Proof.
  induction p as [|c p IH]; intros l H; [done|].
  cbn [app Py.contains]. rewrite (IH l H). apply orb_true_r.
Qed.

Lemma join_cons_head sep c p pieces :
  Py.join sep ((c :: p) :: pieces) = c :: Py.join sep (p :: pieces).
Proof. by destruct pieces. Qed.

(** The first piece is the text up to the first separator. *)
Lemma split_first_prefix sep : ∀ l,
  ∃ p pieces rest, Py.split_from sep 0 l = p :: pieces ∧ l = p ++ rest.
Proof.
  induction l as [|c l IH]; cbn [Py.split_from].
  - by exists [], [], [].
  - destruct (Py.startswith sep (c :: l)).
    + by exists [], (Py.split_from sep (length sep - 1) l), (c :: l).
    + destruct IH as (p & pieces & rest & -> & Hl).
      exists (c :: p), pieces, rest. by rewrite Hl at 1.
Qed.

(** Every piece is a stretch of the text. *)
Lemma split_from_infix sep : ∀ l k piece,
  piece ∈ Py.split_from sep k l → ∃ u v, l = u ++ piece ++ v.
Proof.
  induction l as [|c l IH]; intros k piece; cbn [Py.split_from].
  - intros ->%list_elem_of_singleton. by exists [], [].
  - destruct k as [|k].
    + destruct (Py.startswith sep (c :: l)).
      * intros [->|H]%elem_of_cons; [by exists [], (c :: l)|].
        apply IH in H as (u & v & ->). by exists (c :: u), v.
      * destruct (split_first_prefix sep l) as (p & pieces & rest & E & Hl).
        specialize (IH 0 piece). rewrite E in IH |- *.
        intros [->|H]%elem_of_cons.
        -- exists [], rest. by rewrite Hl at 1.
        -- destruct IH as (u & v & Huv); [by apply list_elem_of_further|].
           exists (c :: u), v. by rewrite Huv at 1.
    + intros H. apply IH in H as (u & v & ->). by exists (c :: u), v.
Qed.

Lemma split_pieces_contain sep sub l piece :
  piece ∈ Py.split sep l → Py.contains sub piece = true →
  Py.contains sub l = true.
Proof.
  intros (u & v & ->)%split_from_infix H.
  by apply contains_app_l, contains_app_r.
Qed.

(** No piece holds the separator. *)
Lemma split_from_no_sep sep : sep ≠ [] → ∀ l k piece,
  piece ∈ Py.split_from sep k l → Py.contains sep piece = false.
Proof.
  intros Hsep. induction l as [|c l IH]; intros k piece; cbn [Py.split_from].
  - intros ->%list_elem_of_singleton. by destruct sep.
  - destruct k as [|k]; [|apply IH].
    destruct (Py.startswith sep (c :: l)) eqn:E.
    + intros [->|H]%elem_of_cons; [by destruct sep | by eapply IH].
    + destruct (split_first_prefix sep l) as (p & pieces & rest & E' & Hl).
      specialize (IH 0). rewrite E' in IH |- *.
      intros [->|H]%elem_of_cons.
      * cbn [Py.contains]. rewrite (IH p) by apply list_elem_of_here.
        rewrite orb_false_r.
        destruct (Py.startswith sep (c :: p)) eqn:Es; [|done].
        apply (startswith_app_r _ _ rest) in Es. cbn [app] in Es.
        rewrite <- Hl in Es. congruence.
      * apply IH. by apply list_elem_of_further.
Qed.

(** A text without separator is one piece. *)
Lemma split_no_sep sep : ∀ l, Py.contains sep l = false → Py.split sep l = [l].
Proof.
  unfold Py.split. induction l as [|c l IH]; [done|].
  cbn [Py.contains Py.split_from].
  intros [-> Hl]%orb_false_elim. by rewrite IH.
Qed.

Lemma match_crlf l :
  Re.re_match Re.crlf l =
  if Py.startswith [CR; LF] l then Some 2 else None.
Proof.
  unfold Re.crlf. rewrite re_match_cls. destruct l as [|c r]; [done|].
  cbn [Py.startswith]. unfold Re.lit at 1.
  destruct (decide (c = CR)) as [->|Hc].
  - rewrite !bool_decide_eq_true_2 by done. cbn [andb].
    rewrite re_match_cls. destruct r as [|d r]; [done|].
    unfold Re.lit. destruct (decide (d = LF)) as [->|Hd].
    + by rewrite !bool_decide_eq_true_2.
    + by rewrite !bool_decide_eq_false_2 by congruence.
  - by rewrite !bool_decide_eq_false_2 by congruence.
Qed.

(** Splitting at the line breaks and joining with spaces is replacing
    the line breaks by spaces. *)
Lemma join_split_crlf : ∀ l k,
  Py.join [SPACE] (Py.split_from [CR; LF] k l) =
  Re.sub_from Re.crlf [SPACE] k l.
Proof.
  induction l as [|c l IH]; intros k; [done|].
  destruct k as [|k]; cbn [Py.split_from Re.sub_from]; [|apply IH].
  rewrite match_crlf. destruct (Py.startswith [CR; LF] (c :: l)).
  - change (length [CR; LF] - 1) with 1. rewrite <- IH.
    pose proof (split_from_not_nil [CR; LF] 1 l).
    by destruct (Py.split_from [CR; LF] 1 l).
  - rewrite <- IH. pose proof (split_from_not_nil [CR; LF] 0 l).
    destruct (Py.split_from [CR; LF] 0 l) as [|p pieces]; [done|].
    apply join_cons_head.
Qed.

Lemma sub_crlf_no_line_break : ∀ l,
  Py.contains [CR; LF] l = false → Re.sub Re.crlf [SPACE] l = l.
Proof.
  induction l as [|c l IH]; [done|]. cbn [Py.contains].
  intros [Hs Hl]%orb_false_elim.
  rewrite sub_cons, match_crlf, Hs. by rewrite IH.
Qed.

(** Pieces without line break, joined with spaces, hold no line break. *)
Lemma contains_crlf_app_space : ∀ l r,
  Py.contains [CR; LF] l = false → Py.contains [CR; LF] r = false →
  Py.contains [CR; LF] (l ++ SPACE :: r) = false.
Proof.
  induction l as [|c l IH]; intros r Hl Hr.
  - cbn [app Py.contains]. by rewrite Hr.
  - cbn [Py.contains] in Hl. apply orb_false_elim in Hl as [Hs Hl].
    cbn [app Py.contains]. rewrite IH by done. rewrite orb_false_r.
    destruct l as [|d l]; [|exact Hs].
    cbn. by rewrite andb_false_r.
Qed.

Lemma join_no_line_break : ∀ pieces,
  Forall (λ p, Py.contains [CR; LF] p = false) pieces →
  Py.contains [CR; LF] (Py.join [SPACE] pieces) = false.
Proof.
  induction pieces as [|p pieces IH]; [done|].
  intros Hall. inversion Hall as [|? ? Hp Hrest]; subst.
  destruct pieces as [|q pieces]; [done|].
  rewrite join_cons_cons. apply contains_crlf_app_space; [done|].
  by apply IH.
Qed.

End Lines.

(** ** Header removal at the edges *)

Section HeaderEdges.

Implicit Types (s iliad m x : str) (st : rbh_state) (ls pre rest : list str).

Lemma kept_from_subset : ∀ ls st x, x ∈ kept_from st ls → x ∈ ls.
Proof.
  induction ls as [|l ls IH]; intros st x.
  - rewrite kept_from_nil. by intros ?%elem_of_nil.
  - rewrite kept_from_cons, elem_of_app. intros [H|H].
    + destruct (is_poem (rbh_step st l)).
      * apply list_elem_of_singleton in H as ->. apply list_elem_of_here.
      * by apply elem_of_nil in H.
    + apply list_elem_of_further. by eapply IH.
Qed.

(** In a text without ['BOOK '] no line is a marker: nothing is left out,
    and header removal does what the replacement of line breaks does. *)
Theorem remove_book_headers_no_marker s :
  Py.contains (py "BOOK ") s = false →
  remove_book_headers s = replace_newlines s.
Proof.
  intros Hs. rewrite remove_book_headers_kept.
  assert (Forall (λ l, Py.contains (py "BOOK ") l = false)
            (Py.split [CR; LF] s)) as Hall.
  { apply Forall_forall. intros l Hl.
    destruct (Py.contains (py "BOOK ") l) eqn:E; [|done].
    apply (split_pieces_contain _ _ _ _ Hl) in E. congruence. }
  destruct (plain_lines _ rbh_init Hall) as (-> & _ & _).
  cbn [is_poem rbh_init]. apply join_split_crlf.
Qed.

(** The output of header removal holds no line break: the replacement of
    line breaks that follows it in [clean_poem] changes nothing. *)
Theorem remove_book_headers_no_line_break s :
  Py.contains [CR; LF] (remove_book_headers s) = false
  ∧ replace_newlines (remove_book_headers s) = remove_book_headers s
  ∧ clean_poem s =
    collapse_spaces
      (remove_tr (remove_brackets (strip_digits (remove_book_headers s)))).
Proof.
  assert (Py.contains [CR; LF] (remove_book_headers s) = false) as H.
  { rewrite remove_book_headers_kept. apply join_no_line_break.
    apply Forall_forall. intros l Hl%kept_from_subset.
    by apply (split_from_no_sep [CR; LF] ltac:(done) s 0). }
  assert (replace_newlines (remove_book_headers s) = remove_book_headers s)
    as H'.
  { by apply sub_crlf_no_line_break. }
  split_and!; [done | done |].
  unfold clean_poem. by rewrite H'.
Qed.

(** A text without line break is one line: it is kept as it is, unless it
    holds ['BOOK '], and then nothing of it is left. *)
Theorem remove_book_headers_one_line s :
  Py.contains [CR; LF] s = false →
  remove_book_headers s = if Py.contains (py "BOOK ") s then [] else s.
Proof.
  intros Hs. rewrite remove_book_headers_kept, split_no_sep by done.
  rewrite kept_from_cons, kept_from_nil, app_nil_r.
  destruct (Py.contains (py "BOOK ") s) eqn:E.
  - rewrite rbh_step_first; [done | done |].
    cbn. apply not_elem_of_empty.
  - by rewrite rbh_step_plain.
Qed.

(** A marker line that does not come again closes the toggle for good:
    with no marker line after it, nothing from it on is in the output. *)
Theorem remove_book_headers_unrepeated iliad pre m rest :
  Py.split [CR; LF] iliad = pre ++ m :: rest →
  Py.contains (py "BOOK ") m = true →
  m ∉ pre →
  Forall (λ l, Py.contains (py "BOOK ") l = false) rest →
  remove_book_headers iliad = Py.join [SPACE] (kept_from rbh_init pre)
  ∧ (Forall (λ l, Py.contains (py "BOOK ") l = false) pre →
     remove_book_headers iliad = Py.join [SPACE] pre).
Proof.
  intros Hlines Hm Hpre Hrest.
  assert (remove_book_headers iliad = Py.join [SPACE] (kept_from rbh_init pre))
    as H.
  { rewrite remove_book_headers_kept, Hlines, kept_from_app, kept_from_cons.
    rewrite rbh_step_first; [|done|].
    - cbn [is_poem app].
      match goal with |- context [kept_from ?st rest] =>
        destruct (plain_lines rest st Hrest) as (-> & _ & _) end.
      cbn [is_poem]. by rewrite app_nil_r.
    - intros [Hin|Hin]%markers_seen; [|done].
      cbn in Hin. by apply elem_of_empty in Hin. }
  split; [done|]. intros Hplain. rewrite H.
  by destruct (plain_lines pre rbh_init Hplain) as (-> & _ & _).
Qed.

End HeaderEdges.

Lemma remove_book_headers_no_marker_witness :
  remove_book_headers (py "Sing, Muse," ++ [CR; LF] ++ py "the wrath") =
  py "Sing, Muse, the wrath".
Proof.
  rewrite remove_book_headers_no_marker.
  - vm_compute. reflexivity.
  - vm_compute. reflexivity.
Defined.

Lemma remove_book_headers_one_line_witness :
  remove_book_headers (py "THE FIRST BOOK OF THE ILIAD") = [].
Proof.
  rewrite remove_book_headers_one_line.
  - vm_compute. reflexivity.
  - vm_compute. reflexivity.
Defined.

Lemma remove_book_headers_unrepeated_witness :
  remove_book_headers
    (py "Sing, Muse," ++ [CR; LF] ++ py "END OF BOOK I." ++ [CR; LF]
     ++ py "the wrath") =
  py "Sing, Muse,".
Proof.
  destruct (remove_book_headers_unrepeated
              (py "Sing, Muse," ++ [CR; LF] ++ py "END OF BOOK I." ++ [CR; LF]
               ++ py "the wrath")
              [py "Sing, Muse,"] (py "END OF BOOK I.") [py "the wrath"])
    as [_ H].
  - vm_compute. reflexivity.
  - vm_compute. reflexivity.
  - apply (bool_decide_unpack _). vm_compute. exact I.
  - repeat constructor.
  - rewrite H; [vm_compute; reflexivity | repeat constructor].
Defined.

(** ** White space after cleaning *)

Section Collapse.

Implicit Types (s l r t : str) (c d : char) (n : nat).

(** The rest of the text after the run of white space at its start. *)
#[local] Abbreviation after_run l :=
  (drop (default 0 (Re.re_match Re.spaces l)) l).

Lemma collapse_spaces_nil : collapse_spaces [] = [].
Proof. done. Qed.

Lemma collapse_spaces_cons c l :
  collapse_spaces (c :: l) =
  if Py.is_space c then SPACE :: collapse_spaces (after_run l)
  else c :: collapse_spaces l.
Proof.
  unfold collapse_spaces. rewrite sub_cons, match_spaces_cons.
  by destruct (Py.is_space c).
Qed.

(** The greedy match takes the whole run: what follows it is no white
    space. *)
Lemma after_run_head : ∀ l,
  match after_run l with
  | [] => True
  | d :: _ => Py.is_space d = false
  end.
Proof.
  induction l as [|c l IH]; [done|].
  rewrite match_spaces_cons. destruct (Py.is_space c) eqn:E; [|done].
  exact IH.
Qed.

Lemma after_run_length l : length (after_run l) ≤ length l.
Proof. rewrite length_drop. lia. Qed.

Lemma after_run_no_space c l :
  Py.is_space c = false → after_run (c :: l) = c :: l.
Proof. intros E. by rewrite match_spaces_cons, E. Qed.

(** A text whose first character is no white space keeps it in front. *)
Lemma collapse_spaces_head l :
  match l with
  | [] => collapse_spaces l = []
  | d :: r => Py.is_space d = false → collapse_spaces l = d :: collapse_spaces r
  end.
Proof.
  destruct l as [|d r]; [done|]. intros E.
  by rewrite collapse_spaces_cons, E.
Qed.

Lemma single_spaced_nil : single_spaced [].
Proof. split; [by intros c ?%elem_of_nil | done]. Qed.

Lemma single_spaced_cons_inv c t :
  single_spaced (c :: t) → single_spaced t.
Proof.
  intros [Hws Hpair]. split.
  - intros d Hd. apply Hws. by apply list_elem_of_further.
  - cbn [Py.contains] in Hpair. by apply orb_false_elim in Hpair as [_ ?].
Qed.

Lemma collapse_spaces_single_spaced_aux : ∀ n l,
  length l ≤ n → single_spaced (collapse_spaces l).
Proof.
  induction n as [|n IH]; intros l Hn.
  - destruct l; [apply single_spaced_nil | simpl in Hn; lia].
  - destruct l as [|c l]; [apply single_spaced_nil|].
    cbn [length] in Hn. rewrite collapse_spaces_cons.
    destruct (Py.is_space c) eqn:E.
    + pose proof (after_run_length l) as Hlen.
      destruct (IH (after_run l) ltac:(lia)) as [Hws Hpair].
      split.
      * intros d [->|Hd]%elem_of_cons; [done | by apply Hws].
      * cbn [Py.contains]. rewrite Hpair, orb_false_r.
        pose proof (after_run_head l) as Hhead.
        pose proof (collapse_spaces_head (after_run l)) as Hout.
        destruct (after_run l) as [|d r]; [by rewrite Hout|].
        rewrite (Hout Hhead). cbn [Py.startswith].
        rewrite bool_decide_eq_true_2, bool_decide_eq_false_2; [done| |done].
        intros Heq. subst d. by vm_compute in Hhead.
    + destruct (IH l ltac:(lia)) as [Hws Hpair]. split.
      * intros d [->|Hd]%elem_of_cons; [congruence | by apply Hws].
      * cbn [Py.contains]. rewrite Hpair, orb_false_r.
        cbn [Py.startswith].
        rewrite bool_decide_eq_false_2; [done|].
        intros Heq. subst c. by vm_compute in E.
Qed.

(** After the white space step, and so at the end of [clean_poem], the
    only white space left is the space, and no two spaces are next to
    each other. *)
Theorem collapse_spaces_single_spaced s :
  single_spaced (collapse_spaces s) ∧ single_spaced (clean_poem s).
Proof.
  split; [|unfold clean_poem];
    by eapply collapse_spaces_single_spaced_aux.
Qed.

Lemma collapse_spaces_fixed : ∀ t,
  single_spaced t → collapse_spaces t = t.
Proof.
  induction t as [|c t IH]; [done|]. intros Hss.
  pose proof (single_spaced_cons_inv _ _ Hss) as Ht.
  rewrite collapse_spaces_cons. destruct (Py.is_space c) eqn:E.
  - destruct Hss as [Hws Hpair].
    assert (c = SPACE) as -> by (apply Hws; [apply list_elem_of_here | done]).
    f_equal. destruct t as [|d t]; [done|].
    assert (Py.is_space d = false) as Hd.
    { destruct (Py.is_space d) eqn:Ed; [|done].
      rewrite (Hws d) in Hpair;
        [done | apply list_elem_of_further, list_elem_of_here | done]. }
    rewrite after_run_no_space by done. by apply IH.
  - f_equal. by apply IH.
Qed.

(** The white space step changes a text exactly when the text is not in
    normal form; applied twice it does what it does once. *)
Theorem collapse_spaces_idempotent s t :
  collapse_spaces (collapse_spaces s) = collapse_spaces s
  ∧ (single_spaced t ↔ collapse_spaces t = t).
Proof.
  split.
  - by eapply collapse_spaces_fixed, collapse_spaces_single_spaced_aux.
  - split; [apply collapse_spaces_fixed|].
    intros <-. by eapply collapse_spaces_single_spaced_aux.
Qed.

End Collapse.

(** ** Bracket removal applied twice *)

Section BracketsTwice.

Implicit Types (s l : str) (c : char) (n : nat).

#[local] Abbreviation close :=
  (Re.re_match [Re.LazyStar (λ c, negb (Re.lit LF c)); Re.Cls (Re.lit RBRACKET)]).

(** An opening bracket that finds no closing bracket on its line finds
    none after the removal either. *)
Lemma close_none_after_removal : ∀ l,
  close l = None → close (remove_brackets l) = None.
Proof.
  induction l as [|c l IH]; [done|].
  rewrite close_cons. destruct (decide (c = RBRACKET)) as [|Hr]; [done|].
  destruct (decide (c = LF)) as [->|Hn].
  - intros _. rewrite remove_brackets_cons, decide_False by done.
    rewrite close_cons. by rewrite decide_False, decide_True.
  - destruct (close l) eqn:E; [done|]. intros _.
    rewrite remove_brackets_cons, E.
    assert (close (c :: remove_brackets l) = None) as H.
    { rewrite close_cons, !decide_False by done. by rewrite IH. }
    by case_decide.
Qed.

Lemma remove_brackets_idempotent_aux : ∀ n l,
  length l ≤ n → remove_brackets (remove_brackets l) = remove_brackets l.
Proof.
  induction n as [|n IH]; intros l Hn.
  - destruct l; [done | simpl in Hn; lia].
  - destruct l as [|c l]; [done|]. cbn [length] in Hn.
    rewrite (remove_brackets_cons c l).
    destruct (decide (c = LBRACKET)) as [->|Hc].
    + destruct (close l) as [m|] eqn:E.
      * apply IH. rewrite length_drop. lia.
      * rewrite remove_brackets_cons, decide_True by done.
        rewrite close_none_after_removal by done.
        f_equal. apply IH. lia.
    + rewrite remove_brackets_cons, decide_False by done.
      f_equal. apply IH. lia.
Qed.

(** What bracket removal leaves, it leaves for good: a second pass finds
    nothing more to remove. *)
Theorem remove_brackets_idempotent s :
  remove_brackets (remove_brackets s) = remove_brackets s.
Proof. by eapply remove_brackets_idempotent_aux. Qed.

End BracketsTwice.

(** ** Apostrophes *)

Section Modernize.

Implicit Types (s l r : str) (c : char) (n : nat).

#[local] Abbreviation LETTER_d := (100%N).
#[local] Abbreviation LETTER_e := (101%N).

Lemma modernize_sentences_nil : modernize_sentences [] = [].
Proof. done. Qed.

Lemma modernize_sentences_match l :
  modernize_sentences (RSQUO :: LETTER_d :: l) =
  LETTER_e :: LETTER_d :: modernize_sentences l.
Proof. done. Qed.

Lemma modernize_sentences_copy c l :
  Py.startswith [RSQUO; LETTER_d] (c :: l) = false →
  modernize_sentences (c :: l) = c :: modernize_sentences l.
Proof.
  intros H. unfold modernize_sentences, Py.replace.
  change (RSQUO :: py "d") with [RSQUO; LETTER_d].
  cbn [Py.replace_from]. by rewrite H.
Qed.

(** The three shapes of a text for the replacement. *)
Lemma modernize_sentences_cases l :
  l = []
  ∨ (∃ r, l = RSQUO :: LETTER_d :: r)
  ∨ (∃ c r, l = c :: r ∧ Py.startswith [RSQUO; LETTER_d] l = false).
Proof.
  destruct l as [|c r]; [by left|]. right.
  destruct (Py.startswith [RSQUO; LETTER_d] (c :: r)) eqn:E.
  - left. apply startswith_inv in E. cbn in E.
    injection E as -> E. rewrite E. eauto.
  - right. eauto.
Qed.

Lemma modernize_sentences_head l r :
  modernize_sentences l = LETTER_d :: r → ∃ r', l = LETTER_d :: r'.
Proof.
  destruct (modernize_sentences_cases l) as [->|[[r' ->]|(c & r' & -> & E)]].
  - done.
  - rewrite modernize_sentences_match. done.
  - rewrite modernize_sentences_copy by done. intros [= -> _]. eauto.
Qed.

Lemma modernize_sentences_aux : ∀ n l,
  length l ≤ n →
  length (modernize_sentences l) = length l
  ∧ Py.contains [RSQUO; LETTER_d] (modernize_sentences l) = false.
Proof.
  induction n as [|n IH]; intros l Hn.
  - destruct l; [done | simpl in Hn; lia].
  - destruct (modernize_sentences_cases l) as [->|[[r ->]|(c & r & -> & E)]].
    + done.
    + rewrite modernize_sentences_match. cbn [length] in *.
      destruct (IH r ltac:(lia)) as [Hlen Hno]. split; [lia|].
      cbn [Py.contains]. rewrite Hno. done.
    + rewrite modernize_sentences_copy by done. cbn [length] in *.
      destruct (IH r ltac:(lia)) as [Hlen Hno]. split; [lia|].
      cbn [Py.contains]. rewrite Hno, orb_false_r.
      destruct (Py.startswith [RSQUO; LETTER_d]
                  (c :: modernize_sentences r)) eqn:Es; [|done].
      apply startswith_inv in Es. cbn in Es. injection Es as -> Es.
      apply modernize_sentences_head in Es as [r' ->]. done.
Qed.

(** After the replacement no [’d] is left in the text, and the text has
    the length it had. *)
Theorem modernize_sentences_complete s :
  Py.contains (RSQUO :: py "d") (modernize_sentences s) = false
  ∧ length (modernize_sentences s) = length s.
Proof.
  destruct (modernize_sentences_aux (length s) s ltac:(lia)) as [H1 H2].
  done.
Qed.

End Modernize.

(** ** Stopword removal applied twice, and what reaches the scorer *)

Section ScorerInput.

Variable english : list str.
Variable lower : str → str.
Variable Scores : Type.
Variable polarity_scores : str → Scores.

Implicit Types (s text g : str) (a c : char) (pieces : list str)
  (out : list (line Scores)).

(** Without the stopwords there is no stopword left to remove. *)
Theorem remove_stopwords_idempotent s :
  remove_stopwords english lower (remove_stopwords english lower s) =
  remove_stopwords english lower s.
Proof.
  rewrite (remove_stopwords_join _ _ (remove_stopwords english lower s)).
  unfold surviving at 1. rewrite tokens_of_remove_stopwords.
  destruct (surviving english lower s) as [|w ws] eqn:E.
  - rewrite (remove_stopwords_join _ _ s), E, filter_cons, filter_nil.
    by case_decide.
  - rewrite <- E. unfold surviving. rewrite list_filter_filter.
    rewrite remove_stopwords_join. unfold surviving. f_equal.
    apply list_filter_iff. tauto.
Qed.

Lemma join_occurrences a : a ≠ SPACE → ∀ pieces,
  occurrences a (Py.join [SPACE] pieces) = occurrences a (concat pieces).
Proof.
  intros Ha. induction pieces as [|p pieces IH]; [done|].
  destruct pieces as [|q pieces].
  - cbn. by rewrite app_nil_r.
  - rewrite join_cons_cons. cbn [concat] in *.
    rewrite !occurrences_app, IH, occurrences_app.
    rewrite (occurrences_0 a [SPACE]); [done|].
    by intros ->%list_elem_of_singleton.
Qed.

Lemma concat_filter_occurrences a (P : str → Prop) `{∀ w, Decision (P w)} :
  ∀ pieces,
  occurrences a (concat (filter P pieces)) ≤ occurrences a (concat pieces).
Proof.
  induction pieces as [|p pieces IH]; [done|].
  rewrite filter_cons. cbn [concat]. rewrite occurrences_app.
  case_decide; cbn [concat]; rewrite ?occurrences_app; lia.
Qed.

(** Stopword removal brings in no character but the space. *)
Lemma remove_stopwords_occurrences_le a s :
  a ≠ SPACE →
  occurrences a (remove_stopwords english lower s) ≤ occurrences a s.
Proof.
  intros Ha. rewrite remove_stopwords_join, join_occurrences by done.
  unfold surviving.
  rewrite <- (split_occurrences [SPACE] a s); [|done|].
  - apply concat_filter_occurrences.
  - by intros ->%list_elem_of_singleton.
Qed.

Lemma modernize_sentences_occurrences_le a s :
  a ∉ py "ed" →
  occurrences a (modernize_sentences s) ≤ occurrences a s.
Proof. intros Ha. by apply replace_from_occurrences_le. Qed.

Lemma clean_poem_no_digit c s :
  is_digit c = true → occurrences c (clean_poem s) = 0.
Proof.
  intros Hd. unfold clean_poem.
  set (t := replace_newlines (remove_book_headers s)).
  assert (occurrences c (strip_digits t) = 0) as H0.
  { apply occurrences_0. rewrite strip_digits_filter.
    intros [? _]%list_elem_of_filter. congruence. }
  assert (c ∉ [SPACE]) as Hsp.
  { intros ->%list_elem_of_singleton. done. }
  pose proof (sub_from_occurrences_le Re.spaces [SPACE] c Hsp
                (remove_tr (remove_brackets (strip_digits t))) 0) as H1.
  pose proof (remove_tr_occurrences_le c (remove_brackets (strip_digits t))).
  pose proof (remove_brackets_occurrences_le c (strip_digits t)).
  unfold collapse_spaces, Re.sub. lia.
Qed.

(** The text handed to the scorer holds no ASCII digit and no white space
    but the space. *)
Theorem scorer_input_characters s c :
  c ∈ remove_stopwords english lower (modernize_sentences (clean_poem s)) →
  is_digit c = false ∧ (Py.is_space c = true → c = SPACE).
Proof.
  intros Hc%occurrences_pos.
  assert (c ≠ SPACE → c ∉ py "ed" → 0 < occurrences c (clean_poem s)) as Hin.
  { intros H1 H2.
    pose proof (remove_stopwords_occurrences_le c
                  (modernize_sentences (clean_poem s)) H1).
    pose proof (modernize_sentences_occurrences_le c (clean_poem s) H2).
    lia. }
  split.
  - destruct (is_digit c) eqn:Hd; [exfalso | done].
    rewrite (clean_poem_no_digit c s Hd) in Hin.
    assert (0 < 0); [|lia]. apply Hin.
    + intros ->. done.
    + intros Hed. change (py "ed") with [101; 100]%N in Hed.
      rewrite !elem_of_cons, elem_of_nil in Hed.
      destruct Hed as [->| [->|[]]]; done.
  - intros Hws. destruct (decide (c = SPACE)) as [|Hne]; [done | exfalso].
    assert (0 < occurrences c (clean_poem s)) as Hpos.
    { apply Hin; [done|]. intros Hed.
      change (py "ed") with [101; 100]%N in Hed.
      rewrite !elem_of_cons, elem_of_nil in Hed.
      destruct Hed as [->| [->|[]]]; done. }
    destruct (collapse_spaces_single_spaced_aux
                (length (remove_tr (remove_brackets (strip_digits
                   (replace_newlines (remove_book_headers s))))))
                _ (le_n _)) as [Hss _].
    apply Hne, Hss; [|done].
    destruct (decide (c ∈ clean_poem s)) as [|Hout]; [done|].
    apply (occurrences_0 c) in Hout. lia.
Qed.

(** With the NLTK data and the text downloaded, the script ends after six
    calls of [print], in this order.  The count of the call [Analyzing] is
    the count of the call for the text without stopwords, which is at
    least one and at most the count of the call before it. *)
Theorem script_report text g out :
  ∃ n1 n2 n3 final,
    program lower Scores (Ok polarity_scores) (Ok english)
      (MkWorld (Ok text) g out) =
    Ok (tt, MkWorld (Ok text) final
              (out ++ [Downloaded n1; Contains n2; WithoutStopwords n3;
                       Analyzing n3; ResultsHeader;
                       Json (polarity_scores final)]))
    ∧ 1 ≤ n3 ≤ n2
    ∧ n3 = occurrences SPACE final + 1.
Proof.
  eexists _, _, _, _. split.
  { rewrite program_with_data. apply script_value. }
  cbv zeta. split.
  - split; [rewrite count_words_occurrences; lia|].
    apply remove_stopwords_word_count.
  - apply count_words_occurrences.
Qed.

(** The faults of the script, in the order of the source: it ends in a
    fault exactly when the lexicon is missing, or, with the lexicon, when
    the request fails, or, with the lexicon and the text, when the
    stopword corpus is missing; the fault is the one of the first of
    these that holds. *)
Theorem program_faults (lexicon : result (str → Scores))
    (corpus : result (list str)) (network : result str) g out e :
  program lower Scores lexicon corpus (MkWorld network g out) = Raise e ↔
  lexicon = Raise e
  ∨ ((∃ sia, lexicon = Ok sia) ∧ network = Raise e)
  ∨ ((∃ sia text, lexicon = Ok sia ∧ network = Ok text) ∧ corpus = Raise e).
Proof.
  destruct lexicon as [sia|e1].
  2: { change (program lower Scores (Raise e1) corpus (MkWorld network g out))
         with (@Raise (unit * World Scores) e1).
       split; [intros [= ->]; by left|].
       intros [[= ->]|[[[? [=]] _]|[(? & ? & [=] & _) _]]]. done. }
  destruct network as [text|e2].
  2: { change (program lower Scores (Ok sia) corpus (MkWorld (Raise e2) g out))
         with (@Raise (unit * World Scores) e2).
       split; [intros [= ->]; right; left; eauto|].
       intros [[=]|[[_ [= ->]]|[(? & ? & _ & [=]) _]]]. done. }
  destruct corpus as [words|e3].
  - pose proof (script_value words lower Scores sia text g out) as Hv.
    cbv zeta in Hv. rewrite <- program_with_data in Hv. rewrite Hv.
    split; [done|]. intros [[=]|[[_ [=]]|[_ [=]]]].
  - change (program lower Scores (Ok sia) (Raise e3) (MkWorld (Ok text) g out))
      with (@Raise (unit * World Scores) e3).
    split; [intros [= ->]; right; right; eauto|].
    intros [[=]|[[_ [=]]|[_ [= ->]]]]. done.
Qed.

End ScorerInput.

Lemma scorer_input_characters_witness :
  is_digit 119%N = false ∧ (Py.is_space 119%N = true → 119%N = SPACE).
Proof.
  apply (scorer_input_characters nltk_english lower_ascii
           (py "The 2 wrath" ++ [9%N] ++ py "of Achilles") 119%N).
  apply (bool_decide_unpack _). vm_compute. exact I.
Defined.

(** ** Header removal deletes whole lines *)

Section WholeLines.

Implicit Types (s : str) (st : rbh_state) (ls : list str).

Lemma kept_from_sublist : ∀ ls st, kept_from st ls `sublist_of` ls.
Proof.
  induction ls as [|l ls IH]; intros st.
  - by rewrite kept_from_nil.
  - rewrite kept_from_cons. specialize (IH (rbh_step st l)).
    destruct (is_poem (rbh_step st l)); cbn [app].
    + by apply sublist_skip.
    + by apply sublist_cons.
Qed.

(** Header removal only leaves lines out: its output is the join of some
    of the lines of the text, in their order, each kept whole; and a line
    without ['BOOK '] before the first marker line is always among them. *)
Theorem remove_book_headers_keeps_lines s :
  ∃ kept,
    kept `sublist_of` Py.split [CR; LF] s
    ∧ remove_book_headers s = Py.join [SPACE] kept
    ∧ ∀ pre rest,
        Py.split [CR; LF] s = pre ++ rest →
        Forall (λ l, Py.contains (py "BOOK ") l = false) pre →
        pre `prefix_of` kept.
Proof.
  exists (kept_from rbh_init (Py.split [CR; LF] s)). split_and!.
  - apply kept_from_sublist.
  - apply remove_book_headers_kept.
  - intros pre rest -> Hpre. rewrite kept_from_app.
    destruct (plain_lines pre rbh_init Hpre) as (-> & _ & _).
    cbn [is_poem rbh_init]. by apply prefix_app_r.
Qed.

End WholeLines.

Lemma remove_book_headers_keeps_lines_witness :
  ∃ kept,
    remove_book_headers mini_poem = Py.join [SPACE] kept
    ∧ [py "A TRANSLATION"] `prefix_of` kept.
Proof.
  destruct (remove_book_headers_keeps_lines mini_poem) as (kept & _ & Hj & Hp).
  exists kept. split; [exact Hj|].
  apply (Hp [py "A TRANSLATION"]
            [py "BOOK I."; py "ARGUMENT OF THE FIRST BOOK."; py "BOOK I.";
             py "Sing, Muse, the wrath"; py "of Achilles"]).
  - vm_compute. reflexivity.
  - repeat constructor.
Defined.

(** ** Digits and brackets *)

Section DigitsBrackets.

Implicit Types (s l : str) (c : char) (n : nat).

#[local] Abbreviation close :=
  (Re.re_match [Re.LazyStar (λ c, negb (Re.lit LF c)); Re.Cls (Re.lit RBRACKET)]).

Lemma strip_digits_cons c l :
  strip_digits (c :: l) =
  if is_digit c then strip_digits l else c :: strip_digits l.
Proof.
  rewrite !strip_digits_filter, filter_cons.
  destruct (is_digit c); by case_decide.
Qed.

(** A digit is no bracket and no line feed: the closing bracket is found
    with or without the digits, and what follows it is the same text. *)
Lemma close_strip_digits : ∀ l,
  match close l with
  | Some n =>
      ∃ n', close (strip_digits l) = Some n'
            ∧ drop n' (strip_digits l) = strip_digits (drop n l)
  | None => close (strip_digits l) = None
  end.
Proof.
  induction l as [|c l IH]; [done|].
  rewrite (close_cons c l), strip_digits_cons.
  destruct (decide (c = RBRACKET)) as [->|Hr].
  { change (is_digit RBRACKET) with false. cbv iota.
    exists 1. by rewrite close_cons, decide_True. }
  destruct (decide (c = LF)) as [->|Hn].
  { change (is_digit LF) with false. cbv iota.
    by rewrite close_cons, decide_False, decide_True. }
  destruct (is_digit c) eqn:Hd.
  - destruct (close l) as [n|]; cbn [fmap option_fmap option_map]; [|done].
    destruct IH as (n' & H1 & H2). by exists n'.
  - rewrite close_cons, !decide_False by done.
    destruct (close l) as [n|]; cbn [fmap option_fmap option_map].
    + destruct IH as (n' & -> & H2). by exists (S n').
    + by rewrite IH.
Qed.

Lemma strip_digits_remove_brackets_aux : ∀ n l,
  length l ≤ n →
  remove_brackets (strip_digits l) = strip_digits (remove_brackets l).
Proof.
  induction n as [|n IH]; intros l Hn.
  - destruct l; [done | simpl in Hn; lia].
  - destruct l as [|c l]; [done|]. cbn [length] in Hn.
    rewrite strip_digits_cons, (remove_brackets_cons c l).
    destruct (decide (c = LBRACKET)) as [->|Hc].
    + change (is_digit LBRACKET) with false. cbv iota.
      rewrite remove_brackets_cons, decide_True by done.
      pose proof (close_strip_digits l) as Hcl.
      destruct (close l) as [m|] eqn:E.
      * destruct Hcl as (m' & -> & ->). apply IH.
        apply re_match_le in E. rewrite length_drop. lia.
      * rewrite Hcl, strip_digits_cons.
        change (is_digit LBRACKET) with false. cbv iota.
        f_equal. apply IH. lia.
    + rewrite (strip_digits_cons c (remove_brackets l)).
      destruct (is_digit c); [apply IH; lia|].
      rewrite remove_brackets_cons, decide_False by done.
      f_equal. apply IH. lia.
Qed.

(** Digit stripping and bracket removal give the same text in either
    order. *)
Theorem strip_digits_remove_brackets_commute s :
  remove_brackets (strip_digits s) = strip_digits (remove_brackets s).
Proof. by eapply strip_digits_remove_brackets_aux. Qed.

End DigitsBrackets.
